(** * input-aspects: controls, converted controls, status and data aspects

    A shallow embedding of the reactive core of the input-aspects library
    ([src/control.ts], [src/focus/status.aspect.ts],
    [src/data/data.aspect.ts]) together with the properties its
    specification states about it.

    The first part holds the definitions, one module per source file or
    class; the second part, from [StatusFacts] on, the properties. *)

From Stdlib Require Import ZArith List Bool Lia.
From stdpp Require Import base option list gmap strings.
Import ListNotations.

Local Set Warnings "-register-all".

(** ** JavaScript values

    Control values, termination reasons and thrown exceptions are plain
    JavaScript values.  A number is an integer or [NaN].  An object
    carries the identity it is compared by; its fields are kept so that a
    datum can be inspected below the top level. *)

Inductive value : Type :=
| VUndefined
| VNull
| VBool (b : bool)
| VNum (n : Z)
| VNaN
| VStr (s : string)
| VObj (ref : nat) (fields : list (string * value)).

(** [a === b]: by value on primitives, by identity on objects, and never
    true on [NaN]. *)
Definition strict_eq (a b : value) : bool :=
  match a, b with
  | VUndefined, VUndefined => true
  | VNull, VNull => true
  | VBool x, VBool y => Bool.eqb x y
  | VNum x, VNum y => Z.eqb x y
  | VStr x, VStr y => String.eqb x y
  | VObj r _, VObj r' _ => Nat.eqb r r'
  | _, _ => false
  end.

(** [a !== b] *)
Definition strict_ne (a b : value) : bool := negb (strict_eq a b).

(** What calling a user supplied function yields: a value, or a throw. *)
Inductive completion : Type :=
| Returns (v : value)
| Throws (e : value).

(** ** Status flags ([src/focus/status.aspect.ts]) *)

Module Status.

Record Flags : Type := mkFlags {
  hasFocus : bool;
  touched : bool;
  edited : bool
}.

Definition defaultFlags : Flags :=
  {| hasFocus := false; touched := false; edited := false |}.

(** [updateFlags(flags, hasFocus, edited)] *)
Definition updateFlags (flags : Flags) (hasFocus' edited' : bool) : Flags :=
  let flags :=
    if hasFocus'
    then {| hasFocus := hasFocus'; touched := true; edited := edited flags |}
    else {| hasFocus := hasFocus'; touched := touched flags; edited := edited flags |} in
  if edited'
  then {| hasFocus := hasFocus flags; touched := true; edited := edited' |}
  else flags.

(** The body of the callback [itsEach] runs for every element inside
    [combineFlags]; [result] is the object it mutates. *)
Definition combineStep (result f : Flags) : Flags :=
  let result :=
    if touched f
    then {| hasFocus := hasFocus result; touched := true; edited := edited result |}
    else result in
  let result :=
    if hasFocus f
    then {| hasFocus := true; touched := true; edited := edited result |}
    else result in
  if edited f
  then {| hasFocus := hasFocus result; touched := true; edited := true |}
  else result.

(** [combineFlags(...flags)] *)
Definition combineFlags (flags : list Flags) : Flags :=
  fold_left combineStep flags
            {| hasFocus := false; touched := false; edited := false |}.

(** Where the flags of an [InControlStatus] come from.  The constructor
    picks [containerFlags] when the control has the container aspect and
    [elementFlags] otherwise; what is kept here is the latest event of
    each source that feeds the chosen stream. *)
Inductive Feed : Type :=
| ElementFeed (focus : bool) (input : bool)
  (** [afterEventFromAll({ hasFocus, edited })]: the focus flag
      ([false] forever without a focus aspect) and whether the latest
      input carried a user event ([false] forever without an element) *)
| ContainerFeed (statuses : list Flags).
  (** [afterEventFromEach(...controlStatuses(snapshot))]: the flags of
      the status aspect of every control of the current snapshot *)

(** [elementFlags(origin, control)]: what the stream sends when its two
    sources last sent [focus] and [input]; [origin] is the current value of
    the tracker, [origin.it]. *)
Definition elementFlags (origin : Flags) (focus input : bool) : Flags :=
  updateFlags origin focus input.

(** [containerFlags(container)]: what the stream sends when the statuses
    of the controls of the snapshot last sent [statuses]. *)
Definition containerFlags (statuses : list Flags) : Flags :=
  combineFlags statuses.

(** The flags the feeding stream sends. *)
Definition feedFlags (feed : Feed) (origin : Flags) : Flags :=
  match feed with
  | ElementFeed focus input => elementFlags origin focus input
  | ContainerFeed statuses => containerFlags statuses
  end.

(** [InControlStatus]: the [_flags] value tracker.  Every object the
    code assigns to [_flags.it] is freshly built, hence never [===] the
    one it replaces, and is sent on to the receivers of [read]; [sent]
    lists them, latest first. *)
Record InControlStatus : Type := mkStatus {
  _flags : Flags;
  feed : Feed;
  sent : list Flags
}.

(** [this._flags.it = flags] *)
Definition assign (flags : Flags) (s : InControlStatus) : InControlStatus :=
  {| _flags := flags; feed := feed s; sent := flags :: sent s |}.

(** A new event of the feeding stream reaches [_flags.by(flags)]. *)
Definition feedSends (feed' : Feed) (s : InControlStatus) : InControlStatus :=
  assign (feedFlags feed' (_flags s))
         {| _flags := _flags s; feed := feed'; sent := sent s |}.

(** [new InControlStatus(control)]: the tracker starts from
    [defaultFlags] and [by] at once receives the stream's current event. *)
Definition create (feed0 : Feed) : InControlStatus :=
  feedSends feed0 {| _flags := defaultFlags; feed := feed0; sent := [] |}.

(** A parameter declared [name = true]. *)
Definition orTrue (arg : option bool) : bool :=
  match arg with
  | Some b => b
  | None => true
  end.

(** [markTouched(touched = true)] *)
Definition markTouched (arg : option bool) (s : InControlStatus) : InControlStatus :=
  let touched' := orTrue arg in
  let flags := _flags s in
  if negb touched' then
    if touched flags then
      assign {| hasFocus := hasFocus flags;
                touched := hasFocus flags;
                edited := false |} s
    else s
  else if negb (touched flags) then
    assign {| hasFocus := hasFocus flags;
              touched := touched';
              edited := edited flags |} s
  else s.

(** [markEdited(edited = true)] *)
Definition markEdited (arg : option bool) (s : InControlStatus) : InControlStatus :=
  let edited' := orTrue arg in
  let flags := _flags s in
  if edited' then
    if negb (edited flags) then
      assign {| hasFocus := hasFocus flags;
                touched := true;
                edited := edited' |} s
    else s
  else if edited flags then
    assign {| hasFocus := hasFocus flags;
              touched := touched flags;
              edited := edited' |} s
  else s.

(** What can happen to a status aspect after its construction. *)
Inductive Event : Type :=
| FocusSent (hasFocus' : bool)
  (** the focus tracker of the element sends its new value *)
| InputSent (byUser : bool)
  (** [element.input] sends [{ value, event }]; [byUser] is [!!event] *)
| StatusesSent (statuses : list Flags)
  (** the container's snapshot changed, or the status of one of its
      controls sent new flags *)
| MarkTouched (arg : option bool)
| MarkEdited (arg : option bool).

(** An event of a source the status is not subscribed to never reaches
    it. *)
Definition handle (s : InControlStatus) (ev : Event) : InControlStatus :=
  match ev, feed s with
  | FocusSent h, ElementFeed _ input => feedSends (ElementFeed h input) s
  | InputSent e, ElementFeed focus _ => feedSends (ElementFeed focus e) s
  | StatusesSent fs, ContainerFeed _ => feedSends (ContainerFeed fs) s
  | MarkTouched arg, _ => markTouched arg s
  | MarkEdited arg, _ => markEdited arg s
  | _, _ => s
  end.

Definition run (s : InControlStatus) (evs : list Event) : InControlStatus :=
  fold_left handle evs s.

(** [edited ⇒ touched] and [hasFocus ⇒ touched], as a test. *)
Definition consistent (f : Flags) : bool :=
  implb (edited f) (touched f) && implb (hasFocus f) (touched f).

(** Every snapshot of a status aspect, the current one and the ones sent
    before, satisfies both implications. *)
Definition allConsistent (s : InControlStatus) : bool :=
  consistent (_flags s) && forallb consistent (sent s).

(** *** A container and the status aspects of its controls *)

(** [controls] is the latest snapshot of [container.controls]: each
    control (named by a number) with the current flags of its status
    aspect; [aggregate] is the container's own status aspect. *)
Record Container : Type := mkContainer {
  controls : list (nat * Flags);
  aggregate : InControlStatus
}.

Inductive Change : Type :=
| SnapshotSent (snapshot : list (nat * Flags))
  (** [container.controls.read] sends a new snapshot; [dig_] drops the
      subscriptions to the statuses of the previous one *)
| ControlSent (control : nat) (flags : Flags)
  (** the status aspect of a control sends new flags *)
| Marked (touchedOrEdited : bool) (arg : option bool).
  (** [markTouched(arg)] or [markEdited(arg)] is called on the status
      aspect of the container itself *)

(** [controlStatuses(snapshot)], each status aspect given by the flags it
    holds. *)
Definition controlStatuses (snapshot : list (nat * Flags)) : list Flags :=
  map snd snapshot.

Definition setFlags (control : nat) (flags : Flags) (cs : list (nat * Flags))
  : list (nat * Flags) :=
  map (fun c => if Nat.eqb (fst c) control then (fst c, flags) else c) cs.

Definition isControl (control : nat) (cs : list (nat * Flags)) : bool :=
  existsb (fun c => Nat.eqb (fst c) control) cs.

Definition change (c : Container) (ch : Change) : Container :=
  match ch with
  | SnapshotSent snapshot =>
      {| controls := snapshot;
         aggregate := handle (aggregate c) (StatusesSent (controlStatuses snapshot)) |}
  | ControlSent control flags =>
      if isControl control (controls c) then
        let cs := setFlags control flags (controls c) in
        {| controls := cs;
           aggregate := handle (aggregate c) (StatusesSent (controlStatuses cs)) |}
      else c
  | Marked touchedOrEdited arg =>
      {| controls := controls c;
         aggregate := handle (aggregate c)
                             (if touchedOrEdited then MarkTouched arg else MarkEdited arg) |}
  end.

Definition newContainer (snapshot : list (nat * Flags)) : Container :=
  {| controls := snapshot;
     aggregate := create (ContainerFeed (controlStatuses snapshot)) |}.

Definition changes (c : Container) (chs : list Change) : Container :=
  fold_left change chs c.


(** The aggregate as the specification words it: each flag is the OR of
    the controls' flags, and a control that has focus or was edited makes
    the aggregate touched. *)
Definition orFold (flags : list Flags) : Flags :=
  {| hasFocus := existsb hasFocus flags;
     touched := existsb (fun f => touched f || hasFocus f || edited f) flags;
     edited := existsb edited flags |}.


(** The events of the two sources [elementFlags] combines, as opposed to
    the calls of [markTouched] and [markEdited]. *)
Definition isStreamEvent (ev : Event) : bool :=
  match ev with
  | FocusSent _ | InputSent _ => true
  | _ => false
  end.

End Status.

(** ** The data aspect ([src/data/data.aspect.ts]) *)

Module Data.

(** [Object.is]-like sameness of two data: [===], or both [NaN]. *)
Definition sameValue (a b : value) : bool :=
  match a, b with
  | VNaN, VNaN => true
  | _, _ => strict_eq a b
  end.

Definition isObject (v : value) : bool :=
  match v with
  | VObj _ _ => true
  | _ => false
  end.

(** [InData.DataType<TValue>], read on values: a datum of [v] is
    [undefined], or [v] itself when [v] is no object, or else an object
    each of whose fields is a datum of the field of [v] with the same
    name (no field is required). *)
Fixpoint isDataOf (d v : value) {struct d} : bool :=
  match d with
  | VUndefined => true
  | VObj _ dfields =>
      match v with
      | VObj _ vfields =>
          forallb
            (fun df =>
               existsb (fun vf => String.eqb (fst df) (fst vf) && isDataOf (snd df) (snd vf))
                       vfields)
            dfields
      | _ => false
      end
  | _ => negb (isObject v) && sameValue d v
  end.

Section DataAspect.

(** [InMode.Value] and [InMode.hasData] belong to the mode aspect, which
    is declared in another file of the library; the data aspect uses
    nothing else of it. *)
Variable Mode : Type.
Variable hasData : Mode -> bool.

(** The function handed to [mapAfter] by [InData__aspect.applyTo]. *)
Definition dataOf (v : value) (mode : Mode) : value :=
  if hasData mode then v else VUndefined.

(** [dataByValue(value, mode)] of the earlier implementation: the
    parameters of the event to send, [nextArgs(value)] or [nextArgs()]. *)
Definition dataByValue (v : value) (mode : Mode) : list value :=
  if hasData mode then [v] else [].

(** What a receiver [data => ...] reads from the parameters of an event. *)
Definition firstParameter (args : list value) : value :=
  match args with
  | a :: _ => a
  | [] => VUndefined
  end.

(** [afterAll({ value: ctrl, mode: ctrl.aspect(InMode) })] keeps the
    latest event of each of its two sources and sends the mapped pair when
    either of them sends; [received] lists what the receivers of the data
    aspect got, latest first. *)
Record InData : Type := mkInData {
  value_ : value;
  mode_ : Mode;
  received : list value
}.

Inductive Update : Type :=
| ValueSent (v : value)
| ModeSent (mode : Mode).

(** A receiver registered on the aspect is sent the current datum at once. *)
Definition applyTo (v : value) (mode : Mode) : InData :=
  {| value_ := v; mode_ := mode; received := [dataOf v mode] |}.

Definition update (d : InData) (u : Update) : InData :=
  match u with
  | ValueSent v =>
      {| value_ := v; mode_ := mode_ d; received := dataOf v (mode_ d) :: received d |}
  | ModeSent mode =>
      {| value_ := value_ d; mode_ := mode; received := dataOf (value_ d) mode :: received d |}
  end.

Definition updates (d : InData) (us : list Update) : InData :=
  fold_left update us d.

(** The datum last sent. *)
Definition current (d : InData) : value :=
  firstParameter (received d).

(** The values the control has held: the one the aspect was applied at
    and the ones it has sent since. *)
Definition valuesHeld (v : value) (us : list Update) : list value :=
  v :: flat_map (fun u => match u with ValueSent v' => [v'] | ModeSent _ => [] end) us.

End DataAspect.

Arguments dataOf {Mode} hasData v mode.
Arguments dataByValue {Mode} hasData v mode.
Arguments value_ {Mode} i.
Arguments mode_ {Mode} i.
Arguments received {Mode} i.
Arguments ValueSent {Mode} v.
Arguments ModeSent {Mode} mode.
Arguments applyTo {Mode} hasData v mode.
Arguments update {Mode} hasData d u.
Arguments updates {Mode} hasData d us.
Arguments current {Mode} d.
Arguments valuesHeld {Mode} v us.

End Data.

(** ** Converted controls ([InConverted] in [src/control.ts])

    One source control and one control converted from it.  The value
    trackers and the emitter come from the events library; what is used
    of them is their contract: a tracker stores an assigned value and
    sends it to its receivers, in the order they were registered and
    before the assignment returns, unless the value is [===] the stored
    one; once [done(reason)] was called it has no receivers left, and each
    receiver's [whenDone] callback has been called once with the reason of
    the first such call. *)

Module Converted.

(** What the conversion did, as seen from outside. *)
Inductive Effect : Type :=
| SetCalled (v : value)
  (** [converters.set(v)] *)
| GetCalled (v : value)
  (** [converters.get(v)] *)
| SourceAssigned (v : value)
  (** the converted control executed [src.it = v] *)
| SourceSent (newValue oldValue : value)
  (** the source stored [newValue] and sent it to its receivers *)
| ItAssigned (newValue : value) (rev : Z)
  (** [this._it.it = [newValue, rev]] *)
| OnSent (newValue oldValue : value)
  (** [on.send(newValue, oldValue)]: the change event of the converted
      control *)
| OnDone (reason : value).
  (** [on.done(reason)]: the end of the change events of the converted
      control *)

(** The source tracker, the fields of [InConverted], the two variables
    its constructor closes over, and the effects so far (latest first). *)
Record World : Type := mkWorld {
  src_it : value;
  src_done : option value;
  _it : value * Z;
  _it_done : option value;
  on_done : option value;
  lastRev : Z;
  backward : value;
  effects : list Effect
}.

Definition note (e : Effect) (w : World) : World :=
  {| src_it := src_it w; src_done := src_done w; _it := _it w;
     _it_done := _it_done w; on_done := on_done w; lastRev := lastRev w;
     backward := backward w; effects := e :: effects w |}.

Definition store_src_it (v : value) (w : World) : World :=
  {| src_it := v; src_done := src_done w; _it := _it w;
     _it_done := _it_done w; on_done := on_done w; lastRev := lastRev w;
     backward := backward w; effects := effects w |}.

Definition store_it (p : value * Z) (w : World) : World :=
  {| src_it := src_it w; src_done := src_done w; _it := p;
     _it_done := _it_done w; on_done := on_done w; lastRev := lastRev w;
     backward := backward w; effects := effects w |}.

Definition set_lastRev (rev : Z) (w : World) : World :=
  {| src_it := src_it w; src_done := src_done w; _it := _it w;
     _it_done := _it_done w; on_done := on_done w; lastRev := rev;
     backward := backward w; effects := effects w |}.

Definition set_backward (v : value) (w : World) : World :=
  {| src_it := src_it w; src_done := src_done w; _it := _it w;
     _it_done := _it_done w; on_done := on_done w; lastRev := lastRev w;
     backward := v; effects := effects w |}.

Definition end_src (reason : value) (w : World) : World :=
  {| src_it := src_it w; src_done := Some reason; _it := _it w;
     _it_done := _it_done w; on_done := on_done w; lastRev := lastRev w;
     backward := backward w; effects := effects w |}.

Definition end_it (reason : value) (w : World) : World :=
  {| src_it := src_it w; src_done := src_done w; _it := _it w;
     _it_done := Some reason; on_done := on_done w; lastRev := lastRev w;
     backward := backward w; effects := effects w |}.

Definition end_on (reason : value) (w : World) : World :=
  {| src_it := src_it w; src_done := src_done w; _it := _it w;
     _it_done := _it_done w; on_done := Some reason; lastRev := lastRev w;
     backward := backward w; effects := effects w |}.

(** The world with its record of effects wiped; the record is only ever
    added to, never read. *)
Definition wiped (w : World) : World :=
  {| src_it := src_it w; src_done := src_done w; _it := _it w;
     _it_done := _it_done w; on_done := on_done w; lastRev := lastRev w;
     backward := backward w; effects := [] |}.

(** How a call ends.  [Unfinished] is the nesting bound of the model
    running out, which it never does. *)
Inductive Outcome : Type :=
| Completed
| Thrown (e : value)
| Unfinished.

Section Conversion.

(** [converters.set] and [converters.get] *)
Variable set : value -> completion.
Variable get : value -> completion.

(** The receiver the constructor registers by [src.on(value => ...)]:
    the forward conversion.  [itAssign] is [this._it.it = ...]. *)
Definition forward (itAssign : value * Z -> World -> World * Outcome)
    (v : value) (w : World) : World * Outcome :=
  if strict_ne v (backward w) then
    let w := note (SetCalled v) w in
    match set v with
    | Throws e => (w, Thrown e)
    | Returns converted =>
        let w := set_lastRev (lastRev w + 1)%Z w in
        itAssign (converted, lastRev w) w
    end
  else (w, Completed).

(** The first receiver registered on [_it]:
    [([newValue], [oldValue]) => ...], the sender of change events. *)
Definition sendChange (newValue oldValue : value) (w : World) : World :=
  if strict_ne newValue oldValue
  then note (OnSent newValue oldValue) w
  else w.

(** The second receiver registered on [_it]: [([value, rev]) => ...], the
    backward conversion.  [sourceAssign] is [src.it = ...]. *)
Definition restore (sourceAssign : value -> World -> World * Outcome)
    (p : value * Z) (w : World) : World * Outcome :=
  if negb (Z.eqb (snd p) (lastRev w)) then
    let w := set_lastRev (snd p) w in
    let w := note (GetCalled (fst p)) w in
    match get (fst p) with
    | Throws e => (w, Thrown e)
    | Returns restored =>
        let w := set_backward restored w in
        let '(w, outcome) :=
          sourceAssign (backward w) (note (SourceAssigned (backward w)) w) in
        (* finally *)
        (set_backward VUndefined w, outcome)
    end
  else (w, Completed).

(** [set it(value)] of the source's value tracker, [receiver] being
    registered on it. *)
Definition sourceTracker (receiver : value -> World -> World * Outcome)
    (v : value) (w : World) : World * Outcome :=
  if strict_ne (src_it w) v then
    let w := note (SourceSent v (src_it w)) (store_src_it v w) in
    match src_done w with
    | Some _ => (w, Completed)
    | None => receiver v w
    end
  else (w, Completed).

(** [set it(value)] of the [_it] tracker, the sender of change events
    and then [second] being registered on it.  An array literal is a new
    object, so this tracker always stores and sends. *)
Definition itTracker (second : value * Z -> World -> World * Outcome)
    (p : value * Z) (w : World) : World * Outcome :=
  let oldValue := fst (_it w) in
  let w := note (ItAssigned (fst p) (snd p)) (store_it p w) in
  match _it_done w with
  | Some _ => (w, Completed)
  | None => second p (sendChange (fst p) oldValue w)
  end.

(** [sourceAssign n v] is [src.it = v] and [itAssign n (value, rev)] is
    [this._it.it = [value, rev]], with the receivers the constructor of
    [InConverted] registered; [n] bounds how deep the two may nest. *)
Fixpoint sourceAssign (n : nat) (v : value) (w : World) {struct n} : World * Outcome :=
  match n with
  | O => (w, Unfinished)
  | S n => sourceTracker (forward (itAssign n)) v w
  end
with itAssign (n : nat) (p : value * Z) (w : World) {struct n} : World * Outcome :=
  match n with
  | O => (w, Unfinished)
  | S n => itTracker (restore (sourceAssign n)) p w
  end.

(** Nesting never goes deeper than this. *)
Definition depth : nat := 3.

(** [set it(value)] of the converted control *)
Definition convertedAssign (v : value) (w : World) : World * Outcome :=
  let '(prevValue, prevRev) := _it w in
  if strict_ne v prevValue
  then itAssign depth (v, (prevRev + 1)%Z) w
  else (w, Completed).

(** [get it()] of the converted control *)
Definition convertedIt (w : World) : value := fst (_it w).

(** [done(reason)] of the converted control: [this._it.done(reason)],
    which calls [whenDone(reason => on.done(reason))]. *)
Definition convertedDone (reason : value) (w : World) : World :=
  match _it_done w with
  | Some _ => w
  | None =>
      let w := end_it reason w in
      match on_done w with
      | Some _ => w
      | None => note (OnDone reason) (end_on reason w)
      end
  end.

(** [done(reason)] of the source, which calls
    [whenDone(reason => this.done(reason))]. *)
Definition sourceDone (reason : value) (w : World) : World :=
  match src_done w with
  | Some _ => w
  | None => convertedDone reason (end_src reason w)
  end.

(** [src.convert(set, get)], that is [new InConverted(src, by)], over a
    source holding [source]; nothing is built when [converters.set]
    throws. *)
Definition convert (source : value) : option World :=
  match set source with
  | Throws _ => None
  | Returns converted =>
      Some {| src_it := source; src_done := None; _it := (converted, 0%Z);
              _it_done := None; on_done := None; lastRev := 0%Z;
              backward := VUndefined; effects := [] |}
  end.

(** What the users of the two controls can do. *)
Inductive Action : Type :=
| WriteSource (v : value)
| WriteConverted (v : value)
| CloseSource (reason : value)
| CloseConverted (reason : value).

Definition perform (w : World) (a : Action) : World * Outcome :=
  match a with
  | WriteSource v => sourceAssign depth v w
  | WriteConverted v => convertedAssign v w
  | CloseSource reason => (sourceDone reason w, Completed)
  | CloseConverted reason => (convertedDone reason w, Completed)
  end.

(** A caller that goes on after a throw goes on from the world the throw
    left behind. *)
Definition performAll (w : World) (actions : list Action) : World :=
  fold_left (fun w a => fst (perform w a)) actions w.

(** The effects of one action, latest first. *)
Definition effectsOf (w : World) (a : Action) : list Effect :=
  effects (fst (perform (wiped w) a)).

(** *** The assignments without their nesting

    The forward conversion assigns [_it] the revision it has just made
    [lastRev], so the backward conversion lets that assignment pass; these
    are the two assignments with that step taken. *)

(** [this._it.it = p] when the backward conversion lets it pass. *)
Definition itStored (p : value * Z) (w : World) : World :=
  let oldValue := fst (_it w) in
  let w := note (ItAssigned (fst p) (snd p)) (store_it p w) in
  match _it_done w with
  | Some _ => w
  | None => sendChange (fst p) oldValue w
  end.

Definition forwardOnce (v : value) (w : World) : World * Outcome :=
  forward (fun p w => (itStored p w, Completed)) v w.

Definition sourceWritten (v : value) (w : World) : World * Outcome :=
  sourceTracker forwardOnce v w.

Definition itWritten (p : value * Z) (w : World) : World * Outcome :=
  itTracker (restore sourceWritten) p w.

End Conversion.

(** *** Conversions to try the controls with *)

(** [x => x + 1] and [y => y - 1] over a source of type
    [number | undefined]: a number goes to a number, [undefined] and [NaN]
    go to [NaN].  Values of other types do not occur. *)
Definition plusOne (v : value) : completion :=
  match v with
  | VNum n => Returns (VNum (n + 1))
  | _ => Returns VNaN
  end.

Definition minusOne (v : value) : completion :=
  match v with
  | VNum n => Returns (VNum (n - 1))
  | _ => Returns VNaN
  end.

(** The same two, throwing ["negative"] at a number below zero. *)
Definition plusOneChecked (v : value) : completion :=
  match v with
  | VNum n => if (n <? 0)%Z then Throws (VStr "negative") else Returns (VNum (n + 1))
  | _ => Returns VNaN
  end.

Definition minusOneChecked (v : value) : completion :=
  match v with
  | VNum n => if (n <? 0)%Z then Throws (VStr "negative") else Returns (VNum (n - 1))
  | _ => Returns VNaN
  end.

(** [x => x + 1] that takes numbers from zero on only: it throws
    ["negative"] at a number below zero and ["not a number"] at anything
    else, [NaN] included. *)
Definition plusOneStrict (v : value) : completion :=
  match v with
  | VNum n => if (n <? 0)%Z then Throws (VStr "negative") else Returns (VNum (n + 1))
  | _ => Throws (VStr "not a number")
  end.

(** *** What an observer can tell from the effects *)

(** The reasons the end of the converted control's change events was
    announced with, latest first. *)
Definition endsAnnounced (w : World) : list value :=
  flat_map (fun e => match e with OnDone reason => [reason] | _ => [] end)
           (effects w).

(** Every change event of the converted control carried a new value that
    is [!==] the old one. *)
Definition changesDiffer (w : World) : bool :=
  forallb (fun e => match e with OnSent n o => strict_ne n o | _ => true end)
          (effects w).


(** The values [_it] was assigned, the values the source was assigned by
    the converted control, and the arguments [set] and [get] were called
    with, among some effects. *)
Definition itAssignments (es : list Effect) : list value :=
  flat_map (fun e => match e with ItAssigned v _ => [v] | _ => [] end) es.
Definition sourceAssignments (es : list Effect) : list value :=
  flat_map (fun e => match e with SourceAssigned v => [v] | _ => [] end) es.
Definition setCalls (es : list Effect) : list value :=
  flat_map (fun e => match e with SetCalled v => [v] | _ => [] end) es.
Definition getCalls (es : list Effect) : list value :=
  flat_map (fun e => match e with GetCalled v => [v] | _ => [] end) es.

(** What holds of the two controls between any two actions. *)
Record Settled (w : World) : Prop := mkSettled {
  slot_empty : backward w = VUndefined;
  revision_known : _it_done w = None -> lastRev w = snd (_it w);
  on_ends_with_it : on_done w = _it_done w;
  source_outlives : _it_done w = None -> src_done w = None;
  end_announced_once :
    endsAnnounced w = match on_done w with Some reason => [reason] | None => [] end;
  changes_differ : changesDiffer w = true
}.

Arguments slot_empty {w} s.
Arguments revision_known {w} s _.
Arguments on_ends_with_it {w} s.
Arguments source_outlives {w} s _.
Arguments end_announced_once {w} s.
Arguments changes_differ {w} s.

(** What no assignment changes: which streams have ended and how their
    end was announced, and that every change event carried a new value. *)
Record Same (w w' : World) : Prop := mkSame {
  same_src_done : src_done w' = src_done w;
  same_it_done : _it_done w' = _it_done w;
  same_on_done : on_done w' = on_done w;
  same_ends : endsAnnounced w' = endsAnnounced w;
  same_differ : changesDiffer w = true -> changesDiffer w' = true
}.

Arguments same_src_done {w w'} s.
Arguments same_it_done {w w'} s.
Arguments same_on_done {w w'} s.
Arguments same_ends {w w'} s.
Arguments same_differ {w w'} s _.

(** What the forward conversion and an assignment to the source leave
    behind: the slot as it was, and [lastRev] either still the revision of
    [_it], or both as they were. *)
Definition forwarded (w w' : World) : Prop :=
  Same w w'
  /\ backward w' = backward w
  /\ (lastRev w' = snd (_it w') \/ (lastRev w' = lastRev w /\ _it w' = _it w)).

(** The change events of the converted control among some effects, as
    (new value, old value). *)
Definition changeEvents (es : list Effect) : list (value * value) :=
  flat_map (fun e => match e with OnSent n o => [(n, o)] | _ => [] end) es.

(** A write of a number to either control. *)
Definition numberWrite (a : Action) : bool :=
  match a with
  | WriteSource (VNum _) | WriteConverted (VNum _) => true
  | _ => false
  end.

End Converted.

(** ** When the streams behind an aspect end *)

Module Lifecycle.

(** A stream of events, as far as its end is concerned. *)
Inductive Stream : Type :=
| afterEventOf
  (** [afterEventOf(value)]: a constant, sent to every receiver; nothing
      ever ends it *)
| ofControl (control : nat)
  (** events a control owns (its values, its element's input and focus,
      its container's snapshots): they end when the control is done *)
| afterEventFromAll (first second : Stream).
  (** [afterEventFromAll] or [afterAll] of two sources (and whatever
      [keep.thru] or [mapAfter] derive from it): ends as soon as one of
      its sources does, with the same reason *)

(** The reason a stream ended with, if it did; [done control] is the
    reason [control] was closed with, if it was. *)
Fixpoint ended (done : nat -> option value) (s : Stream) : option value :=
  match s with
  | afterEventOf => None
  | ofControl control => done control
  | afterEventFromAll first second =>
      match ended done first with
      | Some reason => Some reason
      | None => ended done second
      end
  end.

(** [control] has been closed with [reason], and no other control. *)
Definition closed (control : nat) (reason : value) : nat -> option value :=
  fun c => if Nat.eqb c control then Some reason else None.

(** The sources [elementFlags(origin, control)] combines:
    [focus || afterEventOf(false)] and
    [element ? element.input.keep.thru(...) : afterEventOf(false)];
    [isElement] tells whether the control has the element aspect (the
    focus aspect is [null] without it).  The [_flags] tracker of
    [InControlStatus] is bound [by] this stream, and nothing else in the
    file ends it. *)
Definition elementFlagsStream (control : nat) (isElement : bool) : Stream :=
  afterEventFromAll
    (if isElement then ofControl control else afterEventOf)
    (if isElement then ofControl control else afterEventOf).

(** The stream the data aspect is:
    [afterAll({ value: ctrl, mode: ctrl.aspect(InMode) })]. *)
Definition dataStream (control : nat) (mode : Stream) : Stream :=
  afterEventFromAll (ofControl control) mode.

End Lifecycle.

(** ** Aspects of a control ([InControl._aspect] in [src/control.ts]) *)

Module Aspects.

(** [InAspect.Applied]: the aspect instance ([null] when the aspect is
    absent) and a tag standing for the [convertTo] method of the object. *)
Record Applied : Type := mkApplied {
  instance : value;
  convertsBy : nat
}.

(** What [applyTo], [convertTo] and [applyAspect] may do besides
    computing: look up an aspect of a control, or build an object, which
    gets an identity no other object has. *)
Inductive Prog (R : Type) : Type :=
| Ret (r : R)
| LookUp (control aspect : nat) (next : Applied -> Prog R)
| New (next : nat -> Prog R).

Arguments Ret {R} r.
Arguments LookUp {R} control aspect next.
Arguments New {R} next.

Fixpoint bind {A B : Type} (p : Prog A) (f : A -> Prog B) : Prog B :=
  match p with
  | Ret a => f a
  | LookUp control aspect next => LookUp control aspect (fun applied => bind (next applied) f)
  | New next => New (fun ref => bind (next ref) f)
  end.

(** The [_aspects] maps of all controls, keyed by control and aspect; the
    next unused object identity; and the calls of [applyTo] so far, as
    (control, aspect), latest first. *)
Record World : Type := mkWorld {
  _aspects : gmap (nat * nat) Applied;
  nextRef : nat;
  applyToCalls : list (nat * nat)
}.

Definition cache (control aspect : nat) (applied : Applied) (w : World) : World :=
  {| _aspects := <[(control, aspect) := applied]> (_aspects w);
     nextRef := nextRef w;
     applyToCalls := applyToCalls w |}.

Definition noteApplyTo (control aspect : nat) (w : World) : World :=
  {| _aspects := _aspects w;
     nextRef := nextRef w;
     applyToCalls := (control, aspect) :: applyToCalls w |}.

Definition allocate (w : World) : World :=
  {| _aspects := _aspects w;
     nextRef := S (nextRef w);
     applyToCalls := applyToCalls w |}.

Definition emptyWorld : World :=
  {| _aspects := ∅; nextRef := 0; applyToCalls := [] |}.

Section Controls.

(** [aspect.applyTo(control)] *)
Variable applyTo : nat -> nat -> Prog Applied.

(** [applied.convertTo(target)] *)
Variable convertTo : Applied -> nat -> Prog (option Applied).

(** For a control built by [convert]: its source, and
    [converters.applyAspect] when the converter has one. *)
Variable converted : nat -> option (nat * option (nat -> Prog (option Applied))).

(** [convertAspect] inside the constructor of [InConverted] *)
Definition convertAspect (src this aspect : nat) : Prog (option Applied) :=
  LookUp src aspect (fun applied => convertTo applied this).

(** [this._applyAspect(aspect)]: [undefined] for a plain control; for a
    converted one [applyAspect.call(converters, aspect) ||
    convertAspect.call(this, aspect)], or [convertAspect] alone. *)
Definition _applyAspect (this aspect : nat) : Prog (option Applied) :=
  match converted this with
  | None => Ret None
  | Some (src, None) => convertAspect src this aspect
  | Some (src, Some applyAspect) =>
      bind (applyAspect aspect)
           (fun applied =>
              match applied with
              | Some applied => Ret (Some applied)
              | None => convertAspect src this aspect
              end)
  end.

(** [exec n p w] runs [p]; [_aspect n this aspect w] is
    [this._aspect(aspect)].  [None] is [n] steps not being enough. *)
Fixpoint exec (n : nat) (R : Type) (p : Prog R) (w : World) {struct n}
  : option (R * World) :=
  match n with
  | O => None
  | S n =>
      match p with
      | Ret r => Some (r, w)
      | New next => exec n _ (next (nextRef w)) (allocate w)
      | LookUp control aspect next =>
          match _aspect n control aspect w with
          | Some (applied, w) => exec n _ (next applied) w
          | None => None
          end
      end
  end
with _aspect (n : nat) (this aspect : nat) (w : World) {struct n}
  : option (Applied * World) :=
  match n with
  | O => None
  | S n =>
      match _aspects w !! (this, aspect) with
      | Some existing => Some (existing, w)
      | None =>
          match exec n _ (_applyAspect this aspect) w with
          | None => None
          | Some (Some applied, w) => Some (applied, cache this aspect applied w)
          | Some (None, w) =>
              match exec n _ (applyTo aspect this) (noteApplyTo this aspect w) with
              | None => None
              | Some (applied, w) => Some (applied, cache this aspect applied w)
              end
          end
      end
  end.

Arguments exec n {R} p w.

(** [this.aspect(aspectKey)] *)
Definition aspect (n : nat) (this aspectKey : nat) (w : World) : option (value * World) :=
  match _aspect n this aspectKey w with
  | Some (applied, w) => Some (instance applied, w)
  | None => None
  end.

(** How often [applyTo] was called for this control and aspect. *)
Definition timesApplied (control aspect : nat) (w : World) : nat :=
  length (filter (fun call => call = (control, aspect)) (applyToCalls w)).

End Controls.

Arguments exec applyTo convertTo converted n {R} p w.

(** [below rank n p]: every aspect [p] may look up ranks under [n].  With
    [applyTo] and [_applyAspect] of an aspect below the rank of that
    aspect, no aspect of a control is needed to apply itself. *)
Inductive below (rank : nat * nat -> nat) (n : nat) {R : Type} : Prog R -> Prop :=
| below_Ret (r : R) : below rank n (Ret r)
| below_LookUp (control aspect : nat) (next : Applied -> Prog R) :
    rank (control, aspect) < n ->
    (forall applied, below rank n (next applied)) ->
    below rank n (LookUp control aspect next)
| below_New (next : nat -> Prog R) :
    (forall ref, below rank n (next ref)) ->
    below rank n (New next).

(** [call] is in [_aspects] with [applied], and stays so with as many
    calls of [applyTo] as before. *)
Definition kept (call : nat * nat) (applied : Applied) (w w' : World) : Prop :=
  _aspects w' !! call = Some applied
  /\ timesApplied call.1 call.2 w' = timesApplied call.1 call.2 w.

(** Nothing about [call] differs between the two worlds. *)
Definition unchanged (call : nat * nat) (w w' : World) : Prop :=
  _aspects w' !! call = _aspects w !! call
  /\ timesApplied call.1 call.2 w' = timesApplied call.1 call.2 w.

(** [applyTo] was called at most once for [call], and if it was, the
    result is in [_aspects]. *)
Definition appliedOnce (call : nat * nat) (w : World) : Prop :=
  timesApplied call.1 call.2 w <= 1
  /\ (0 < timesApplied call.1 call.2 w -> is_Some (_aspects w !! call)).

(** The first argument of [setup]: an aspect key, which is an object
    with the [InAspect__symbol] property, or a setup function. *)
Inductive SetupArgument : Type :=
| AspectKey (aspectKey : nat)
| SetupFunction (setup : nat -> Prog unit).

(** [isAspectKey(value)]: [InAspect__symbol in value] *)
Definition isAspectKey (arg : SetupArgument) : bool :=
  match arg with
  | AspectKey _ => true
  | SetupFunction _ => false
  end.

(** [this.setup(aspectKeyOrSetup, aspectSetup = noop)], which returns
    [this] *)
Definition setup (this : nat) (aspectKeyOrSetup : SetupArgument)
    (aspectSetup : option (value -> nat -> Prog unit)) : Prog nat :=
  match aspectKeyOrSetup with
  | AspectKey aspectKey =>
      LookUp this aspectKey
             (fun applied =>
                bind (match aspectSetup with
                      | Some aspectSetup => aspectSetup (instance applied) this
                      | None => Ret tt
                      end)
                     (fun _ => Ret this))
  | SetupFunction setup => bind (setup this) (fun _ => Ret this)
  end.

(** *** Two aspects to try the controls with

    Aspect [0] stands for the container aspect of a control that is no
    container (its instance is [null]); aspect [1] is built like the
    status aspect, which looks up the container aspect of the control and
    then builds its instance.  Control [1] is converted from control [0],
    with no [applyAspect] of its own, and [convertTo] declines. *)
Definition twoAspects (aspect control : nat) : Prog Applied :=
  match aspect with
  | 1 =>
      LookUp control 0
             (fun _ => New (fun ref =>
                Ret {| instance := VObj ref []; convertsBy := 1 |}))
  | _ => Ret {| instance := VNull; convertsBy := aspect |}
  end.

Definition declines (applied : Applied) (target : nat) : Prog (option Applied) :=
  Ret None.

Definition oneConverted (control : nat)
  : option (nat * option (nat -> Prog (option Applied))) :=
  match control with
  | 1 => Some (0, None)
  | _ => None
  end.

Definition twoAspectsRank (call : nat * nat) : nat := 2 * call.1 + call.2.

(** An aspect that needs itself: while [applyTo] builds its first
    instance it looks the aspect being applied up on the same control (an
    [applyTo] with a flag in its closure); later calls just build an
    instance. *)
Definition needsItself (aspect control : nat) : Prog Applied :=
  New (fun ref =>
         match ref with
         | 0 =>
             LookUp control aspect
                    (fun _ => Ret {| instance := VObj ref []; convertsBy := aspect |})
         | _ => Ret {| instance := VObj ref []; convertsBy := aspect |}
         end).

(** No control is converted. *)
Definition noneConverted (control : nat)
  : option (nat * option (nat -> Prog (option Applied))) := None.

(** A [convertTo] that hands the converted control the applied aspect of
    its source, as an aspect shared by both controls does. *)
Definition passesOn (applied : Applied) (target : nat) : Prog (option Applied) :=
  Ret (Some applied).

(** Control [1] converted from control [0] by a converter whose
    [applyAspect] builds aspect [1] itself and leaves the others to
    [convertAspect]. *)
Definition ownStatus (aspect : nat) : Prog (option Applied) :=
  match aspect with
  | 1 => New (fun ref => Ret (Some {| instance := VObj ref []; convertsBy := 1 |}))
  | _ => Ret None
  end.

Definition oneCustomConverted (control : nat)
  : option (nat * option (nat -> Prog (option Applied))) :=
  match control with
  | 1 => Some (0, Some ownStatus)
  | _ => None
  end.

End Aspects.

(** * Properties *)

(** ** Status flags *)

Module StatusFacts.
Import Status.

Lemma flags_eta (f : Flags) :
  f = {| hasFocus := hasFocus f; touched := touched f; edited := edited f |}.
Proof. now destruct f. Qed.

Lemma combineStep_fold (fs : list Flags) (acc : Flags) :
  fold_left combineStep fs acc =
  {| hasFocus := hasFocus acc || existsb hasFocus fs;
     touched := touched acc
                || existsb (fun f => touched f || hasFocus f || edited f) fs;
     edited := edited acc || existsb edited fs |}.
Proof.
  revert acc. induction fs as [|f fs IH]; intros acc; simpl.
  - rewrite !orb_false_r. apply flags_eta.
  - rewrite IH. unfold combineStep.
    destruct f as [h t e], acc as [ah at_ ae]; simpl.
    destruct h, t, e, ah, at_, ae; reflexivity.
Qed.

Lemma combineFlags_orFold (fs : list Flags) : combineFlags fs = orFold fs.
Proof. unfold combineFlags. now rewrite combineStep_fold. Qed.

Lemma orFold_consistent (fs : list Flags) : consistent (orFold fs) = true.
Proof.
  unfold consistent, orFold; simpl.
  induction fs as [|[h t e] fs IH]; simpl; [reflexivity|].
  apply andb_true_iff in IH as [IH1 IH2].
  apply andb_true_iff; split.
  - destruct e; simpl; [now rewrite !orb_true_r|].
    destruct (existsb edited fs); simpl in *; [|reflexivity].
    rewrite IH1. apply orb_true_r.
  - destruct h; simpl; [now rewrite !orb_true_r|].
    destruct (existsb hasFocus fs); simpl in *; [|reflexivity].
    rewrite IH2. apply orb_true_r.
Qed.

Lemma updateFlags_consistent (f : Flags) (h e : bool) :
  consistent f = true -> consistent (updateFlags f h e) = true.
Proof. destruct f as [fh ft fe]; destruct h, e, fh, ft, fe; simpl; auto. Qed.

Lemma feedFlags_consistent (fd : Feed) (f : Flags) :
  consistent f = true -> consistent (feedFlags fd f) = true.
Proof.
  destruct fd; simpl; intros H.
  - now apply updateFlags_consistent.
  - unfold containerFlags. rewrite combineFlags_orFold. apply orFold_consistent.
Qed.

Lemma assign_consistent (f : Flags) (s : InControlStatus) :
  consistent f = true -> allConsistent s = true -> allConsistent (assign f s) = true.
Proof.
  unfold allConsistent; simpl; intros Hf Hs.
  apply andb_true_iff in Hs as [_ Hs]. now rewrite Hf, Hs.
Qed.

Lemma feedSends_consistent (fd : Feed) (s : InControlStatus) :
  allConsistent s = true -> allConsistent (feedSends fd s) = true.
Proof.
  intros Hs. unfold feedSends. apply assign_consistent.
  - simpl. apply feedFlags_consistent.
    now apply andb_true_iff in Hs as [Hs _].
  - exact Hs.
Qed.

Lemma markTouched_consistent (arg : option bool) (s : InControlStatus) :
  allConsistent s = true -> allConsistent (markTouched arg s) = true.
Proof.
  intros Hs. unfold markTouched.
  pose proof Hs as Hc. apply andb_true_iff in Hc as [Hc _].
  destruct (_flags s) as [h t e] eqn:E.
  destruct (orTrue arg); simpl; destruct t; simpl; try exact Hs;
    apply assign_consistent; try exact Hs; destruct h, e; simpl in *; auto.
Qed.

Lemma markEdited_consistent (arg : option bool) (s : InControlStatus) :
  allConsistent s = true -> allConsistent (markEdited arg s) = true.
Proof.
  intros Hs. unfold markEdited.
  pose proof Hs as Hc. apply andb_true_iff in Hc as [Hc _].
  destruct (_flags s) as [h t e] eqn:E.
  destruct (orTrue arg); simpl; destruct e; simpl; try exact Hs;
    apply assign_consistent; try exact Hs; destruct h, t; simpl in *; auto.
Qed.

Lemma handle_consistent (s : InControlStatus) (ev : Event) :
  allConsistent s = true -> allConsistent (handle s ev) = true.
Proof.
  intros Hs. unfold handle.
  destruct ev, (feed s); auto using feedSends_consistent,
    markTouched_consistent, markEdited_consistent.
Qed.

Lemma create_consistent (fd : Feed) : allConsistent (create fd) = true.
Proof. unfold create. now apply feedSends_consistent. Qed.

Lemma markTouched_feed (arg : option bool) (s : InControlStatus) :
  feed (markTouched arg s) = feed s.
Proof.
  unfold markTouched.
  destruct (orTrue arg), (touched (_flags s)); reflexivity.
Qed.

Lemma markEdited_feed (arg : option bool) (s : InControlStatus) :
  feed (markEdited arg s) = feed s.
Proof.
  unfold markEdited.
  destruct (orTrue arg), (edited (_flags s)); reflexivity.
Qed.

Lemma run_consistent (s : InControlStatus) (evs : list Event) :
  allConsistent s = true -> allConsistent (run s evs) = true.
Proof.
  revert s. induction evs as [|ev evs IH]; intros s Hs; simpl; [exact Hs|].
  apply IH. now apply handle_consistent.
Qed.

Lemma change_consistent (c : Container) (ch : Change) :
  allConsistent (aggregate c) = true ->
  allConsistent (aggregate (change c ch)) = true.
Proof.
  intros Hc. destruct ch as [snapshot|control flags|which arg];
    cbn [change aggregate].
  - now apply handle_consistent.
  - destruct (isControl control (controls c)); cbn [aggregate]; [|exact Hc].
    now apply handle_consistent.
  - now apply handle_consistent.
Qed.

Lemma changes_consistent (c : Container) (chs : list Change) :
  allConsistent (aggregate c) = true ->
  allConsistent (aggregate (changes c chs)) = true.
Proof.
  revert c. induction chs as [|ch chs IH]; intros c Hc; simpl; [exact Hc|].
  apply IH. now apply change_consistent.
Qed.




(** C5.  [markTouched(false)] on touched flags leaves [touched] equal to
    [hasFocus] and clears [edited]; [markTouched(true)] (or
    [markTouched()]) on untouched flags sets [touched] and nothing else;
    any other call changes nothing.  Calling it again with the same
    argument never changes the flags, and a second [markTouched(true)]
    sends nothing: one transition, not two. *)
Theorem markTouched_cases (h t e : bool) (fd : Feed) (snt : list Flags)
    (arg : option bool) :
  markTouched (Some false) (mkStatus (mkFlags h true e) fd snt)
  = mkStatus (mkFlags h h false) fd (mkFlags h h false :: snt)
  /\ markTouched (Some true) (mkStatus (mkFlags h false e) fd snt)
     = mkStatus (mkFlags h true e) fd (mkFlags h true e :: snt)
  /\ markTouched None (mkStatus (mkFlags h t e) fd snt)
     = markTouched (Some true) (mkStatus (mkFlags h t e) fd snt)
  /\ markTouched (Some false) (mkStatus (mkFlags h false e) fd snt)
     = mkStatus (mkFlags h false e) fd snt
  /\ markTouched (Some true) (mkStatus (mkFlags h true e) fd snt)
     = mkStatus (mkFlags h true e) fd snt
  /\ _flags (markTouched arg (markTouched arg (mkStatus (mkFlags h t e) fd snt)))
     = _flags (markTouched arg (mkStatus (mkFlags h t e) fd snt))
  /\ markTouched (Some true) (markTouched (Some true) (mkStatus (mkFlags h t e) fd snt))
     = markTouched (Some true) (mkStatus (mkFlags h t e) fd snt).
Proof.
  repeat split; try reflexivity.
  - destruct arg as [[|]|], t, h; reflexivity.
  - destruct t; reflexivity.
Qed.

(** C6.  [markEdited(true)] (or [markEdited()]) on flags that are not
    edited sets both [edited] and [touched]; [markEdited(false)] on edited
    flags clears [edited] and leaves [touched] and [hasFocus] as they
    were; a call asking for the state the flags are in already changes
    nothing and sends nothing. *)
Theorem markEdited_cases (h t e : bool) (fd : Feed) (snt : list Flags) :
  markEdited (Some true) (mkStatus (mkFlags h t false) fd snt)
  = mkStatus (mkFlags h true true) fd (mkFlags h true true :: snt)
  /\ markEdited None (mkStatus (mkFlags h t e) fd snt)
     = markEdited (Some true) (mkStatus (mkFlags h t e) fd snt)
  /\ markEdited (Some false) (mkStatus (mkFlags h t true) fd snt)
     = mkStatus (mkFlags h t false) fd (mkFlags h t false :: snt)
  /\ markEdited (Some e) (mkStatus (mkFlags h t e) fd snt)
     = mkStatus (mkFlags h t e) fd snt.
Proof.
  repeat split; try reflexivity.
  destruct e; reflexivity.
Qed.

(** What [consistent] tests. *)
Lemma consistent_spec (f : Flags) :
  consistent f = true <->
  (edited f = true -> touched f = true) /\ (hasFocus f = true -> touched f = true).
Proof.
  destruct f as [h t e]; unfold consistent; simpl.
  destruct h, t, e; simpl; intuition congruence.
Qed.

(** C7.  Whatever events reach a status aspect after its construction
    (focus changes, inputs, new statuses of a container's controls,
    [markTouched] and [markEdited] calls), and whatever changes a
    container goes through, the flags the aspect holds and all the flags
    it has sent satisfy [edited ⇒ touched] and [hasFocus ⇒ touched]. *)
Theorem flags_always_consistent (fd : Feed) (evs : list Event)
    (snapshot : list (nat * Flags)) (chs : list Change) :
  allConsistent (run (create fd) evs) = true
  /\ allConsistent (aggregate (changes (newContainer snapshot) chs)) = true.
Proof.
  split.
  - apply run_consistent, create_consistent.
  - apply changes_consistent. unfold newContainer; simpl. apply create_consistent.
Qed.






(** The container of the specification: [A] untouched and [B] touched and
    edited; then [B] leaves and [C], which has focus, comes. *)
Example container_of_the_specification :
  let A := (1, mkFlags false false false) in
  let B := (2, mkFlags false true true) in
  let C := (3, mkFlags true false false) in
  _flags (aggregate (newContainer [A; B])) = mkFlags false true true
  /\ _flags (aggregate (changes (newContainer [A; B]) [SnapshotSent [A; C]]))
     = mkFlags true true false
  /\ _flags (aggregate (changes (newContainer [A; B])
                                [SnapshotSent [A; C]; ControlSent 2 (mkFlags true true true)]))
     = mkFlags true true false.
Proof. repeat split. Qed.

End StatusFacts.

(** ** The data aspect *)

Module DataFacts.
Import Data.

(** Induction on values that reaches the fields of an object. *)
Lemma value_fields_ind (P : value -> Prop) :
  P VUndefined -> P VNull -> (forall b, P (VBool b)) -> (forall n, P (VNum n)) ->
  P VNaN -> (forall s, P (VStr s)) ->
  (forall ref fields, Forall (fun kv => P (snd kv)) fields -> P (VObj ref fields)) ->
  forall v, P v.
Proof.
  intros Hu Hn Hb Hz Hnan Hs Ho.
  fix IH 1.
  intros [ | |b|n| |s|ref fields];
    [exact Hu|exact Hn|apply Hb|apply Hz|exact Hnan|apply Hs|].
  apply Ho. induction fields as [|[k v] fs IHfs]; constructor.
  - apply IH.
  - apply IHfs.
Qed.

Lemma sameValue_refl (v : value) : sameValue v v = true.
Proof.
  destruct v; simpl; auto.
  - apply eqb_reflx.
  - apply Z.eqb_refl.
  - apply String.eqb_refl.
  - apply Nat.eqb_refl.
Qed.

(** A value is a datum of itself, at every depth. *)
Lemma isDataOf_refl (v : value) : isDataOf v v = true.
Proof.
  induction v as [ | |b|n| |s|ref fields IH] using value_fields_ind;
    simpl; auto using eqb_reflx, Z.eqb_refl, String.eqb_refl.
  - apply forallb_forall. intros df Hin.
    apply existsb_exists. exists df. split; [exact Hin|].
    rewrite String.eqb_refl. simpl.
    rewrite Forall_forall in IH. apply IH.
    now apply list_elem_of_In.
Qed.

Section DataAspect.

Variable Mode : Type.
Variable hasData : Mode -> bool.

Lemma current_update (d : InData Mode) (u : Update Mode) :
  current (update hasData d u)
  = dataOf hasData (value_ (update hasData d u)) (mode_ (update hasData d u)).
Proof. now destruct u. Qed.

Lemma current_updates (d : InData Mode) (us : list (Update Mode)) :
  current d = dataOf hasData (value_ d) (mode_ d) ->
  current (updates hasData d us)
  = dataOf hasData (value_ (updates hasData d us)) (mode_ (updates hasData d us)).
Proof.
  revert d. induction us as [|u us IH]; intros d Hd; simpl; [exact Hd|].
  apply IH, current_update.
Qed.

Lemma updates_app (d : InData Mode) (us vs : list (Update Mode)) :
  updates hasData d (us ++ vs) = updates hasData (updates hasData d us) vs.
Proof. apply fold_left_app. Qed.

Lemma updates_snoc (d : InData Mode) (us : list (Update Mode)) (u : Update Mode) :
  updates hasData d (us ++ [u]) = update hasData (updates hasData d us) u.
Proof. now rewrite updates_app. Qed.

Lemma mode_updates_value (d : InData Mode) (modes : list Mode) :
  value_ (updates hasData d (map ModeSent modes)) = value_ d.
Proof.
  revert d. induction modes as [|m ms IH]; intros d; simpl; [reflexivity|].
  now rewrite IH.
Qed.

(** Every datum the aspect has sent is [undefined] or a value the
    control held, and the value it holds is one of those. *)
Lemma received_whole (v : value) (mode : Mode) (us : list (Update Mode)) :
  In (value_ (updates hasData (applyTo hasData v mode) us)) (valuesHeld v us)
  /\ Forall (fun datum => datum = VUndefined \/ In datum (valuesHeld v us))
            (received (updates hasData (applyTo hasData v mode) us)).
Proof.
  induction us as [|u us IH] using rev_ind.
  - cbn. split; [now left|]. constructor; [|constructor].
    unfold dataOf. destruct (hasData mode); [right; now left|now left].
  - rewrite updates_snoc. destruct IH as [Hv Hr].
    assert (Hmore : forall x, In x (valuesHeld v us) -> In x (valuesHeld v (us ++ [u]))).
    { intros x Hx. unfold valuesHeld in *. rewrite flat_map_app.
      destruct Hx as [Hx|Hx]; [now left|right]. apply in_or_app. now left. }
    assert (Hr' : Forall (fun datum => datum = VUndefined
                                       \/ In datum (valuesHeld v (us ++ [u])))
                         (received (updates hasData (applyTo hasData v mode) us))).
    { eapply Forall_impl; [exact Hr|]. intros x [Hx|Hx]; [now left|right; auto]. }
    destruct u as [v'|mode']; cbn [update value_ received].
    + assert (Hin : In v' (valuesHeld v (us ++ [ValueSent v']))).
      { unfold valuesHeld. rewrite flat_map_app. right. apply in_or_app. right.
        now left. }
      split; [exact Hin|]. constructor; [|exact Hr'].
      unfold dataOf. destruct (hasData _); [now right|now left].
    + split; [now apply Hmore|]. constructor; [|exact Hr'].
      unfold dataOf. destruct (hasData mode'); [right; now apply Hmore|now left].
Qed.

(** C9, as amended.  At every moment the datum the data aspect has sent
    last is the control's value itself, with all its fields at any depth,
    when [InMode.hasData] holds of the current mode, and [undefined]
    otherwise; and every datum it has ever sent is [undefined] or a whole
    value the control held, never a value with some of its fields left
    out.  Such a datum inhabits [InData.DataType], the type that would
    also allow fields to be left out.  The earlier [dataByValue] sends the
    same.  A mode without data turns the datum into [undefined], and once
    a mode with data is back (after any number of mode changes) the value
    is sent again as it was. *)
Theorem data_follows_mode (v : value) (mode off on : Mode)
    (us : list (Update Mode)) (modes : list Mode) :
  hasData off = false -> hasData on = true ->
  let d := updates hasData (applyTo hasData v mode) us in
  current d = (if hasData (mode_ d) then value_ d else VUndefined)
  /\ Forall (fun datum => datum = VUndefined \/ In datum (valuesHeld v us))
            (received d)
  /\ isDataOf (current d) (value_ d) = true
  /\ firstParameter (dataByValue hasData (value_ d) (mode_ d)) = current d
  /\ current (update hasData d (ModeSent off)) = VUndefined
  /\ current (updates hasData d
                (ModeSent off :: map ModeSent modes ++ [ModeSent on]))
     = value_ d.
Proof.
  intros Hoff Hon d.
  assert (Hd : current d = dataOf hasData (value_ d) (mode_ d))
    by (apply current_updates; reflexivity).
  split; [exact Hd|].
  split; [apply received_whole|].
  split.
  { rewrite Hd. unfold dataOf. destruct (hasData (mode_ d)).
    - apply isDataOf_refl.
    - reflexivity. }
  split.
  { rewrite Hd. unfold dataByValue, dataOf.
    now destruct (hasData (mode_ d)). }
  split.
  { simpl. unfold current; simpl. unfold dataOf. now rewrite Hoff. }
  change (ModeSent off :: map ModeSent modes ++ [ModeSent on])
    with (map ModeSent (off :: modes) ++ [ModeSent on]).
  rewrite updates_snoc, current_update.
  cbn [update value_ mode_]. unfold dataOf. rewrite Hon.
  apply mode_updates_value.
Qed.

End DataAspect.

(** The control of the specification: it holds [{ name: "x", age: 3 }];
    its mode goes off and comes back on. *)
Lemma data_follows_mode_witness :
  let person := VObj 1 [("name"%string, VStr "x"); ("age"%string, VNum 3)] in
  let d := updates (fun mode : bool => mode) (applyTo (fun mode : bool => mode) person true) [] in
  current d = person
  /\ Forall (fun datum => datum = VUndefined \/ In datum (valuesHeld (Mode := bool) person []))
            (received d)
  /\ isDataOf (current d) person = true
  /\ firstParameter (dataByValue (fun mode : bool => mode) person true) = current d
  /\ current (update (fun mode : bool => mode) d (ModeSent false)) = VUndefined
  /\ current (updates (fun mode : bool => mode) d [ModeSent false; ModeSent true]) = person.
Proof.
  exact (@data_follows_mode bool (fun mode => mode)
           (VObj 1 [("name"%string, VStr "x"); ("age"%string, VNum 3)])
           true false true [] [] eq_refl eq_refl).
Defined.

(** C9 as stated fails: suppression is not per field.  A control holds
    [{ name: "x", home: { city: "y" } }].  While its mode has no data the
    datum is [undefined] and no object; with data it is the whole value.
    [{ name: "x", home: {} }], which leaves a field out below the top
    level, is a datum of the value by its type, and is never sent. *)
Lemma nested_value_is_suppressed_whole :
  let home := VObj 2 [("city"%string, VStr "y")] in
  let person := VObj 1 [("name"%string, VStr "x"); ("home"%string, home)] in
  let partial := VObj 3 [("name"%string, VStr "x"); ("home"%string, VObj 4 [])] in
  let d := updates (fun mode : bool => mode)
                   (applyTo (fun mode : bool => mode) person true)
                   [ModeSent false; ModeSent true] in
  received d = [person; VUndefined; person]
  /\ isObject (current (updates (fun mode : bool => mode)
                                (applyTo (fun mode : bool => mode) person true)
                                [ModeSent false])) = false
  /\ isDataOf partial person = true
  /\ existsb (sameValue partial) (received d) = false.
Proof. cbv zeta. repeat split. Qed.

End DataFacts.

(** ** Converted controls *)

Module ConvertedFacts.
Import Converted.

Section Conversion.

Variable set : value -> completion.
Variable get : value -> completion.

Lemma sourceAssign_S (n : nat) (v : value) (w : World) :
  sourceAssign set get (S n) v w
  = sourceTracker (forward set (itAssign set get n)) v w.
Proof. reflexivity. Qed.

Lemma itAssign_S (n : nat) (p : value * Z) (w : World) :
  itAssign set get (S n) p w
  = itTracker (restore get (sourceAssign set get n)) p w.
Proof. reflexivity. Qed.

Lemma sendChange_lastRev (a b : value) (w : World) :
  lastRev (sendChange a b w) = lastRev w.
Proof. unfold sendChange. now destruct (strict_ne a b). Qed.

(** The backward conversion lets an assignment of the revision [lastRev]
    pass, whatever it would do otherwise. *)
Lemma itTracker_passes (src : value -> World -> World * Outcome)
    (p : value * Z) (w : World) :
  snd p = lastRev w ->
  itTracker (restore get src) p w = (itStored p w, Completed).
Proof.
  intros Hrev. unfold itTracker, itStored, restore. cbn [_it_done note store_it].
  destruct (_it_done w); [reflexivity|].
  rewrite sendChange_lastRev. cbn [lastRev note store_it].
  now rewrite Hrev, Z.eqb_refl.
Qed.

Lemma forward_once (n : nat) (v : value) (w : World) :
  forward set (itAssign set get (S n)) v w = forwardOnce set v w.
Proof.
  unfold forwardOnce, forward.
  destruct (strict_ne v (backward w)); [|reflexivity].
  destruct (set v); [|reflexivity].
  rewrite itAssign_S. now apply itTracker_passes.
Qed.

Lemma sourceTracker_ext (r r' : value -> World -> World * Outcome)
    (v : value) (w : World) :
  (forall v w, r v w = r' v w) -> sourceTracker r v w = sourceTracker r' v w.
Proof.
  intros Hr. unfold sourceTracker.
  destruct (strict_ne (src_it w) v); [|reflexivity].
  cbn [src_done note store_src_it]. destruct (src_done w); [reflexivity|apply Hr].
Qed.

Lemma restore_ext (r r' : value -> World -> World * Outcome)
    (p : value * Z) (w : World) :
  (forall v w, r v w = r' v w) -> restore get r p w = restore get r' p w.
Proof.
  intros Hr. unfold restore.
  destruct (negb _); [|reflexivity].
  destruct (get (fst p)); [|reflexivity].
  now rewrite Hr.
Qed.

Lemma itTracker_ext (r r' : value * Z -> World -> World * Outcome)
    (p : value * Z) (w : World) :
  (forall p w, r p w = r' p w) -> itTracker r p w = itTracker r' p w.
Proof.
  intros Hr. unfold itTracker. cbn [_it_done note store_it].
  destruct (_it_done w); [reflexivity|apply Hr].
Qed.

(** Two levels of nesting are all an assignment to the source needs, and
    three all an assignment to [_it] needs: the bound is never reached. *)
Lemma sourceAssign_written (n : nat) (v : value) (w : World) :
  sourceAssign set get (S (S n)) v w = sourceWritten set v w.
Proof.
  rewrite sourceAssign_S. apply sourceTracker_ext. apply forward_once.
Qed.

Lemma itAssign_written (n : nat) (p : value * Z) (w : World) :
  itAssign set get (S (S (S n))) p w = itWritten set get p w.
Proof.
  rewrite itAssign_S. apply itTracker_ext. intros p' w'.
  apply restore_ext. apply sourceAssign_written.
Qed.

Lemma Same_refl (w : World) : Same w w.
Proof. now constructor. Qed.

Lemma Same_trans (w1 w2 w3 : World) : Same w1 w2 -> Same w2 w3 -> Same w1 w3.
Proof.
  intros [A1 A2 A3 A4 A5] [B1 B2 B3 B4 B5].
  constructor; try congruence. auto.
Qed.

Lemma Same_note (e : Effect) (w : World) :
  match e with
  | OnDone _ => False
  | OnSent n o => strict_ne n o = true
  | _ => True
  end ->
  Same w (note e w).
Proof.
  intros He. constructor; try reflexivity.
  - unfold endsAnnounced; cbn. now destruct e.
  - unfold changesDiffer; cbn. intros ->. destruct e; auto.
    now rewrite He.
Qed.

Lemma Same_store_src_it (v : value) (w : World) : Same w (store_src_it v w).
Proof. now constructor. Qed.

Lemma Same_store_it (p : value * Z) (w : World) : Same w (store_it p w).
Proof. now constructor. Qed.

Lemma Same_set_lastRev (rev : Z) (w : World) : Same w (set_lastRev rev w).
Proof. now constructor. Qed.

Lemma Same_set_backward (v : value) (w : World) : Same w (set_backward v w).
Proof. now constructor. Qed.

Lemma Same_sendChange (n o : value) (w : World) : Same w (sendChange n o w).
Proof.
  unfold sendChange. destruct (strict_ne n o) eqn:Hne.
  - now apply Same_note.
  - apply Same_refl.
Qed.

Lemma Same_then_note (e : Effect) (w w' : World) :
  match e with
  | OnDone _ => False
  | OnSent n o => strict_ne n o = true
  | _ => True
  end ->
  Same w w' -> Same w (note e w').
Proof. intros He Hw. eapply Same_trans; [exact Hw|now apply Same_note]. Qed.

Lemma Same_then_store_src_it (v : value) (w w' : World) :
  Same w w' -> Same w (store_src_it v w').
Proof. intros Hw. eapply Same_trans; [exact Hw|apply Same_store_src_it]. Qed.

Lemma Same_then_store_it (p : value * Z) (w w' : World) :
  Same w w' -> Same w (store_it p w').
Proof. intros Hw. eapply Same_trans; [exact Hw|apply Same_store_it]. Qed.

Lemma Same_then_set_lastRev (rev : Z) (w w' : World) :
  Same w w' -> Same w (set_lastRev rev w').
Proof. intros Hw. eapply Same_trans; [exact Hw|apply Same_set_lastRev]. Qed.

Lemma Same_then_set_backward (v : value) (w w' : World) :
  Same w w' -> Same w (set_backward v w').
Proof. intros Hw. eapply Same_trans; [exact Hw|apply Same_set_backward]. Qed.

Lemma Same_then_sendChange (n o : value) (w w' : World) :
  Same w w' -> Same w (sendChange n o w').
Proof. intros Hw. eapply Same_trans; [exact Hw|apply Same_sendChange]. Qed.

(** [Same] across any stack of the steps above. *)
Ltac same :=
  repeat first
    [ apply Same_refl
    | assumption
    | apply Same_then_note; [exact I|]
    | apply Same_then_store_src_it
    | apply Same_then_store_it
    | apply Same_then_set_lastRev
    | apply Same_then_set_backward
    | apply Same_then_sendChange ].

Lemma sendChange_fields (n o : value) (w : World) :
  src_it (sendChange n o w) = src_it w
  /\ _it (sendChange n o w) = _it w
  /\ backward (sendChange n o w) = backward w.
Proof. unfold sendChange. now destruct (strict_ne n o). Qed.

Lemma itStored_Same (p : value * Z) (w : World) : Same w (itStored p w).
Proof.
  unfold itStored. cbn [_it_done note store_it].
  destruct (_it_done w); same.
Qed.

Lemma itStored_fields (p : value * Z) (w : World) :
  src_it (itStored p w) = src_it w
  /\ _it (itStored p w) = p
  /\ lastRev (itStored p w) = lastRev w
  /\ backward (itStored p w) = backward w.
Proof.
  unfold itStored. cbn [_it_done note store_it].
  destruct (_it_done w); [now repeat split|].
  destruct (sendChange_fields (fst p) (fst (_it w))
              (note (ItAssigned (fst p) (snd p)) (store_it p w))) as (H1 & H2 & H3).
  rewrite sendChange_lastRev, H1, H2, H3. now repeat split.
Qed.

Lemma forwarded_intro (w w' : World) :
  Same w w' -> backward w' = backward w ->
  lastRev w' = snd (_it w') \/ (lastRev w' = lastRev w /\ _it w' = _it w) ->
  forwarded w w'.
Proof. intros H1 H2 H3. exact (conj H1 (conj H2 H3)). Qed.

Lemma forwarded_refl (w : World) : forwarded w w.
Proof. apply forwarded_intro; auto using Same_refl. Qed.

Lemma forwardOnce_forwarded (v : value) (w : World) :
  forwarded w (fst (forwardOnce set v w))
  /\ snd (forwardOnce set v w) <> Unfinished.
Proof.
  unfold forwardOnce, forward.
  destruct (strict_ne v (backward w)).
  2:{ split; [apply forwarded_refl|discriminate]. }
  destruct (set v) as [converted|e]; cbn [fst snd].
  2:{ split; [|discriminate].
      apply forwarded_intro; auto. same. }
  split; [|discriminate].
  set (w1 := set_lastRev _ _).
  destruct (itStored_fields (converted, lastRev w1) w1) as (_ & H2 & H3 & H4).
  apply forwarded_intro.
  - eapply Same_trans; [|apply itStored_Same]. subst w1. same.
  - rewrite H4. reflexivity.
  - left. rewrite H2, H3. reflexivity.
Qed.

Lemma sourceWritten_forwarded (v : value) (w : World) :
  forwarded w (fst (sourceWritten set v w))
  /\ snd (sourceWritten set v w) <> Unfinished.
Proof.
  unfold sourceWritten, sourceTracker.
  destruct (strict_ne (src_it w) v).
  2:{ split; [apply forwarded_refl|discriminate]. }
  cbn [src_done note store_src_it].
  assert (Hstored : forwarded w (note (SourceSent v (src_it w)) (store_src_it v w))).
  { apply forwarded_intro; auto. same. }
  destruct (src_done w); [split; [exact Hstored|discriminate]|].
  destruct (forwardOnce_forwarded v (note (SourceSent v (src_it w)) (store_src_it v w)))
    as [(S1 & B1 & R1) Hfin].
  split; [|exact Hfin].
  destruct Hstored as (S0 & B0 & R0). apply forwarded_intro.
  - eapply Same_trans; eassumption.
  - congruence.
  - destruct R1 as [R1|[R1 R1']]; [now left|].
    destruct R0 as [R0|[R0 R0']]; [left|right; split]; congruence.
Qed.

Lemma restore_settles (p : value * Z) (w : World) :
  _it w = p ->
  Same w (fst (restore get (sourceWritten set) p w))
  /\ (backward w = VUndefined ->
      backward (fst (restore get (sourceWritten set) p w)) = VUndefined)
  /\ lastRev (fst (restore get (sourceWritten set) p w))
     = snd (_it (fst (restore get (sourceWritten set) p w)))
  /\ snd (restore get (sourceWritten set) p w) <> Unfinished.
Proof.
  intros Hit. unfold restore.
  destruct (Z.eqb_spec (snd p) (lastRev w)) as [Heq|Hne]; cbn [negb].
  { split; [apply Same_refl|]. split; [auto|]. split; [|discriminate].
    cbn. congruence. }
  destruct (get (fst p)) as [restored|e]; cbn [fst snd].
  2:{ split; [|split; [auto|split; [|discriminate]]].
      - same.
      - cbn. congruence. }
  set (w1 := note (SourceAssigned _) _).
  assert (Hw1 : Same w w1).
  { subst w1. same. }
  assert (Hrev1 : lastRev w1 = snd (_it w1)) by (subst w1; cbn; congruence).
  destruct (sourceWritten_forwarded (backward (set_backward restored
              (note (GetCalled (fst p)) (set_lastRev (snd p) w)))) w1)
    as [(S1 & B1 & R1) Hfin].
  destruct (sourceWritten set _ w1) as [w2 outcome]. cbn [fst snd] in *.
  split; [|split; [auto|split; [|exact Hfin]]].
  - apply Same_then_set_backward. eapply Same_trans; eassumption.
  - cbn. destruct R1 as [R1|[R1 R1']]; [exact R1|]. congruence.
Qed.

Lemma itWritten_settles (p : value * Z) (w : World) :
  Same w (fst (itWritten set get p w))
  /\ (backward w = VUndefined -> backward (fst (itWritten set get p w)) = VUndefined)
  /\ (_it_done w = None ->
      lastRev (fst (itWritten set get p w)) = snd (_it (fst (itWritten set get p w))))
  /\ snd (itWritten set get p w) <> Unfinished.
Proof.
  unfold itWritten, itTracker. cbn [_it_done note store_it].
  assert (Hstored : Same w (note (ItAssigned (fst p) (snd p)) (store_it p w)))
    by same.
  destruct (_it_done w) eqn:Hdone.
  { split; [exact Hstored|]. split; [auto|]. split; discriminate. }
  set (w1 := sendChange _ _ _).
  destruct (sendChange_fields (fst p) (fst (_it w))
              (note (ItAssigned (fst p) (snd p)) (store_it p w))) as (_ & H2 & H3).
  destruct (restore_settles p w1 H2) as (S1 & B1 & R1 & Hfin).
  split; [|split; [|split; [auto|exact Hfin]]].
  - eapply Same_trans; [|exact S1]. subst w1. same.
  - intros Hslot. apply B1. subst w1. now rewrite H3.
Qed.

Lemma Same_settled (w w' : World) :
  Same w w' -> backward w' = VUndefined ->
  (_it_done w = None -> lastRev w' = snd (_it w')) ->
  Settled w -> Settled w'.
Proof.
  intros [A1 A2 A3 A4 A5] Hslot Hrev [H1 H2 H3 H4 H5 H6].
  constructor; auto; try congruence.
  - rewrite A2. exact Hrev.
  - rewrite A1, A2. exact H4.
  - rewrite A4, A3. exact H5.
Qed.

Lemma sourceWritten_settled (v : value) (w : World) :
  Settled w -> Settled (fst (sourceWritten set v w)).
Proof.
  intros Hw. destruct (sourceWritten_forwarded v w) as [(S1 & B1 & R1) _].
  apply Same_settled with w; auto.
  - rewrite B1. apply (slot_empty Hw).
  - intros Hlive. destruct R1 as [R1|[R1 R1']]; [exact R1|].
    rewrite R1, R1'. now apply (revision_known Hw).
Qed.

Lemma itWritten_settled (p : value * Z) (w : World) :
  Settled w -> Settled (fst (itWritten set get p w)).
Proof.
  intros Hw.
  destruct (itWritten_settles p w) as (S1 & B1 & R1 & _).
  apply Same_settled with w; auto. apply B1, (slot_empty Hw).
Qed.

Lemma convertedDone_settled (reason : value) (w : World) :
  Settled w -> Settled (convertedDone reason w).
Proof.
  intros Hw. unfold convertedDone.
  destruct (_it_done w) eqn:Hit; [exact Hw|].
  assert (Hon : on_done w = None) by now rewrite (on_ends_with_it Hw).
  cbn [on_done end_it]. rewrite Hon.
  destruct Hw as [H1 H2 H3 H4 H5 H6].
  constructor; try (cbn; congruence); [|exact H6].
  unfold endsAnnounced in *. cbn. now rewrite H5, Hon.
Qed.

Lemma sourceDone_settled (reason : value) (w : World) :
  Settled w -> Settled (sourceDone reason w).
Proof.
  intros Hw. unfold sourceDone, convertedDone.
  destruct (src_done w) eqn:Hsrc; [exact Hw|].
  cbn [_it_done end_src on_done end_it].
  destruct (_it_done w) eqn:Hit.
  - destruct Hw as [H1 H2 H3 H4 H5 H6].
    constructor; try (cbn; congruence); assumption.
  - assert (Hon : on_done w = None) by now rewrite (on_ends_with_it Hw).
    rewrite Hon. destruct Hw as [H1 H2 H3 H4 H5 H6].
    constructor; try (cbn; congruence); [|exact H6].
    unfold endsAnnounced in *. cbn. now rewrite H5, Hon.
Qed.

Lemma convert_settled (source : value) (w : World) :
  convert set source = Some w -> Settled w.
Proof.
  unfold convert. destruct (set source); [|discriminate].
  intros [= <-]. now constructor.
Qed.

Lemma perform_settled (w : World) (a : Action) :
  Settled w -> Settled (fst (perform set get w a)).
Proof.
  intros Hw. destruct a as [v|v|reason|reason]; cbn [perform].
  - unfold depth. rewrite sourceAssign_written. now apply sourceWritten_settled.
  - unfold convertedAssign. destruct (_it w) as [prevValue prevRev] eqn:Hit.
    destruct (strict_ne v prevValue); [|exact Hw].
    unfold depth. rewrite itAssign_written. now apply itWritten_settled.
  - now apply sourceDone_settled.
  - now apply convertedDone_settled.
Qed.

Lemma performAll_settled (w : World) (actions : list Action) :
  Settled w -> Settled (performAll set get w actions).
Proof.
  revert w. induction actions as [|a actions IH]; intros w Hw; [exact Hw|].
  cbn. apply IH. now apply perform_settled.
Qed.

(** No assignment ever reaches the nesting bound. *)
Lemma perform_finishes (w : World) (a : Action) :
  snd (perform set get w a) <> Unfinished.
Proof.
  destruct a as [v|v|reason|reason]; cbn [perform snd]; try discriminate.
  - unfold depth. rewrite sourceAssign_written.
    apply sourceWritten_forwarded.
  - unfold convertedAssign. destruct (_it w) as [prevValue prevRev].
    destruct (strict_ne v prevValue); [|discriminate].
    unfold depth. rewrite itAssign_written.
    apply itWritten_settles.
Qed.


Lemma source_write_result (w : World) (v converted : value) :
  backward w = VUndefined -> src_done w = None ->
  strict_ne (src_it w) v = true -> strict_ne v VUndefined = true ->
  set v = Returns converted ->
  sourceWritten set v w
  = (itStored (converted, (lastRev w + 1)%Z)
       (set_lastRev (lastRev w + 1)
          (note (SetCalled v) (note (SourceSent v (src_it w)) (store_src_it v w)))),
     Completed).
Proof.
  intros Hslot Hlive Hnew Hdef Hset.
  unfold sourceWritten, sourceTracker. rewrite Hnew.
  cbn [src_done note store_src_it]. rewrite Hlive.
  unfold forwardOnce, forward. cbn [backward note store_src_it].
  now rewrite Hslot, Hdef, Hset.
Qed.

(** One write of a new value to the source, other than [undefined],
    converts it once and assigns it to [_it] once; nothing goes back to the
    source. *)
Lemma source_write_crosses_once (w : World) (v converted : value) :
  backward w = VUndefined -> src_done w = None ->
  strict_ne (src_it w) v = true -> strict_ne v VUndefined = true ->
  set v = Returns converted ->
  snd (perform set get w (WriteSource v)) = Completed
  /\ src_it (fst (perform set get w (WriteSource v))) = v
  /\ _it (fst (perform set get w (WriteSource v))) = (converted, (lastRev w + 1)%Z)
  /\ lastRev (fst (perform set get w (WriteSource v))) = (lastRev w + 1)%Z
  /\ setCalls (effectsOf set get w (WriteSource v)) = [v]
  /\ itAssignments (effectsOf set get w (WriteSource v)) = [converted]
  /\ getCalls (effectsOf set get w (WriteSource v)) = []
  /\ sourceAssignments (effectsOf set get w (WriteSource v)) = [].
Proof.
  intros Hslot Hlive Hnew Hdef Hset.
  unfold effectsOf, perform, depth. rewrite !sourceAssign_written.
  rewrite (source_write_result w v converted Hslot Hlive Hnew Hdef Hset).
  rewrite (source_write_result (wiped w) v converted Hslot Hlive Hnew Hdef Hset).
  cbn [fst snd].
  destruct (itStored_fields (converted, (lastRev w + 1)%Z)
              (set_lastRev (lastRev w + 1)
                 (note (SetCalled v) (note (SourceSent v (src_it w)) (store_src_it v w)))))
    as (H1 & H2 & H3 & _).
  rewrite H1, H2, H3. split; [reflexivity|]. repeat (split; [reflexivity|]).
  unfold itStored, sendChange. cbn [_it_done _it note store_it set_lastRev
    store_src_it wiped lastRev fst snd].
  destruct (_it_done w); [now repeat split|].
  destruct (strict_ne converted (fst (_it w))); now repeat split.
Qed.

Lemma converted_write_result (w : World) (v restored : value) (rev : Z) :
  rev <> lastRev w -> _it_done w = None ->
  get v = Returns restored -> strict_eq restored restored = true ->
  itWritten set get (v, rev) w
  = (let w1 := sendChange v (fst (_it w))
                 (note (ItAssigned v rev) (store_it (v, rev) w)) in
     let w2 := note (SourceAssigned restored)
                 (set_backward restored
                    (note (GetCalled v) (set_lastRev rev w1))) in
     set_backward VUndefined
       (if strict_ne (src_it w) restored
        then note (SourceSent restored (src_it w)) (store_src_it restored w2)
        else w2),
     Completed).
Proof.
  intros Hrev Hlive Hget Hself.
  unfold itWritten, itTracker. cbn [_it_done note store_it fst snd]. rewrite Hlive.
  unfold restore. rewrite sendChange_lastRev. cbn [lastRev note store_it fst snd].
  destruct (Z.eqb_spec rev (lastRev w)) as [|_]; [contradiction|]. cbn [negb].
  rewrite Hget. cbn [backward set_backward].
  set (w1 := sendChange _ _ _).
  destruct (sendChange_fields v (fst (_it w))
              (note (ItAssigned v rev) (store_it (v, rev) w))) as (H1 & _ & _).
  assert (Hsrc : src_it w1 = src_it w) by exact H1.
  unfold sourceWritten, sourceTracker.
  cbn [src_it note set_backward set_lastRev]. rewrite Hsrc.
  destruct (strict_ne (src_it w) restored); [|reflexivity].
  cbn [src_done note store_src_it set_backward set_lastRev].
  destruct (src_done w1); [reflexivity|].
  unfold forwardOnce, forward. cbn [backward note store_src_it set_backward].
  unfold strict_ne. now rewrite Hself.
Qed.

(** One write of a new value to the converted control restores it once
    and assigns the source once; [set] is not called, provided the
    restored value is [===] itself. *)
Lemma converted_write_crosses_once (w : World) (v restored : value) :
  backward w = VUndefined -> lastRev w = snd (_it w) -> _it_done w = None ->
  strict_ne v (convertedIt w) = true ->
  get v = Returns restored -> strict_eq restored restored = true ->
  snd (perform set get w (WriteConverted v)) = Completed
  /\ convertedIt (fst (perform set get w (WriteConverted v))) = v
  /\ strict_eq (src_it (fst (perform set get w (WriteConverted v)))) restored = true
  /\ backward (fst (perform set get w (WriteConverted v))) = VUndefined
  /\ getCalls (effectsOf set get w (WriteConverted v)) = [v]
  /\ sourceAssignments (effectsOf set get w (WriteConverted v)) = [restored]
  /\ setCalls (effectsOf set get w (WriteConverted v)) = []
  /\ itAssignments (effectsOf set get w (WriteConverted v)) = [v].
Proof.
  intros Hslot Hrev Hlive Hnew Hget Hself.
  unfold effectsOf, perform, convertedAssign, convertedIt in *. cbn [_it wiped].
  destruct (_it w) as [prevValue prevRev] eqn:Hit. cbn [fst snd] in *.
  rewrite Hnew. unfold depth. rewrite !itAssign_written.
  assert (Hne : (prevRev + 1)%Z <> lastRev w) by lia.
  rewrite (converted_write_result w v restored _ Hne Hlive Hget Hself).
  rewrite (converted_write_result (wiped w) v restored _ Hne Hlive Hget Hself).
  cbv zeta. cbn [fst snd wiped src_it _it effects]. rewrite Hit. cbn [fst].
  unfold sendChange. rewrite Hnew.
  destruct (strict_ne (src_it w) restored) eqn:Hchanged; cbn.
  - now repeat split.
  - apply negb_false_iff in Hchanged. now repeat split.
Qed.

(** A write of [undefined] to the source changes the source and nothing
    else: the forward conversion takes it for the value in flight. *)
Lemma undefined_write_stays_behind (w : World) :
  backward w = VUndefined -> strict_ne (src_it w) VUndefined = true ->
  perform set get w (WriteSource VUndefined)
  = (note (SourceSent VUndefined (src_it w)) (store_src_it VUndefined w), Completed).
Proof.
  intros Hslot Hnew. unfold perform, depth. rewrite sourceAssign_written.
  unfold sourceWritten, sourceTracker, forwardOnce, forward. rewrite Hnew.
  cbn [src_done backward note store_src_it]. rewrite Hslot. cbn.
  now destruct (src_done w).
Qed.

Lemma source_write_throws (w : World) (v e : value) :
  backward w = VUndefined -> src_done w = None ->
  strict_ne (src_it w) v = true -> strict_ne v VUndefined = true ->
  set v = Throws e ->
  snd (perform set get w (WriteSource v)) = Thrown e.
Proof.
  intros Hslot Hlive Hnew Hdef Hset.
  unfold perform, depth. rewrite sourceAssign_written.
  unfold sourceWritten, sourceTracker. rewrite Hnew.
  cbn [src_done note store_src_it]. rewrite Hlive.
  unfold forwardOnce, forward. cbn [backward note store_src_it].
  now rewrite Hslot, Hdef, Hset.
Qed.

Lemma converted_write_throws (w : World) (v e : value) :
  lastRev w = snd (_it w) -> _it_done w = None ->
  strict_ne v (convertedIt w) = true -> get v = Throws e ->
  snd (perform set get w (WriteConverted v)) = Thrown e.
Proof.
  intros Hrev Hlive Hnew Hget.
  unfold perform, convertedAssign, convertedIt in *.
  destruct (_it w) as [prevValue prevRev] eqn:Hit. cbn [fst snd] in *.
  rewrite Hnew. unfold depth. rewrite itAssign_written.
  unfold itWritten, itTracker. cbn [_it_done note store_it fst snd]. rewrite Hlive.
  unfold restore. rewrite sendChange_lastRev. cbn [lastRev note store_it fst snd].
  destruct (Z.eqb_spec (prevRev + 1) (lastRev w)) as [|_]; [lia|]. cbn [negb].
  now rewrite Hget.
Qed.

(** [NaN] is the one value that is not [===] itself. *)
Lemma only_NaN_differs_from_itself (v : value) : strict_ne v v = true -> v = VNaN.
Proof.
  unfold strict_ne. destruct v; cbn; try discriminate; try reflexivity.
  - now rewrite Bool.eqb_reflx.
  - now rewrite Z.eqb_refl.
  - now rewrite String.eqb_refl.
  - now rewrite Nat.eqb_refl.
Qed.

(** A throw raised while the converted control assigns its source, inside
    [try { src.it = backward } finally { ... }], is the outcome of the write
    to the converted control.  The forward conversion runs there only for a
    restored value that is not [===] itself. *)
Lemma restored_write_throws (w : World) (v restored e : value) :
  lastRev w = snd (_it w) -> _it_done w = None -> src_done w = None ->
  strict_ne v (convertedIt w) = true ->
  get v = Returns restored -> strict_ne restored restored = true ->
  set restored = Throws e ->
  snd (perform set get w (WriteConverted v)) = Thrown e
  /\ src_it (fst (perform set get w (WriteConverted v))) = restored
  /\ setCalls (effects (fst (perform set get w (WriteConverted v))))
     = restored :: setCalls (effects w).
Proof.
  intros Hrev Hlive Hsrc Hnew Hget Hself Hset.
  apply only_NaN_differs_from_itself in Hself. subst restored.
  unfold perform, convertedAssign, convertedIt in *.
  destruct (_it w) as [prevValue prevRev] eqn:Hitv. cbn [fst snd] in *.
  rewrite Hnew. unfold depth. rewrite itAssign_written.
  unfold itWritten, itTracker. cbn [_it_done note store_it fst snd]. rewrite Hlive.
  unfold restore. rewrite sendChange_lastRev. cbn [lastRev note store_it fst snd].
  destruct (Z.eqb_spec (prevRev + 1) (lastRev w)) as [|_]; [lia|]. cbn [negb].
  rewrite Hget. cbn [fst backward set_backward]. rewrite Hitv. cbn [fst].
  unfold sendChange. rewrite Hnew.
  unfold sourceWritten, sourceTracker.
  cbn [src_it src_done note set_backward set_lastRev store_it store_src_it].
  change (strict_ne (src_it w) VNaN) with (negb (strict_eq (src_it w) VNaN)).
  assert (Hnan : strict_eq (src_it w) VNaN = false) by now destruct (src_it w).
  rewrite Hnan, Hsrc. cbn [negb].
  unfold forwardOnce, forward.
  cbn [backward lastRev note set_backward set_lastRev store_it store_src_it].
  change (strict_ne VNaN VNaN) with true. cbn iota. rewrite Hset.
  now repeat split.
Qed.

(** An assignment ends no stream. *)
Lemma perform_keeps_ends (w : World) (a : Action) (reason : value) :
  Settled w -> on_done w = Some reason ->
  on_done (fst (perform set get w a)) = Some reason.
Proof.
  intros Hw Hend. pose proof (on_ends_with_it Hw) as Hit. rewrite Hend in Hit.
  destruct a as [v|v|r|r]; cbn [perform fst].
  - unfold depth. rewrite sourceAssign_written.
    destruct (sourceWritten_forwarded v w) as [(S1 & _ & _) _].
    now rewrite (same_on_done S1).
  - unfold convertedAssign. destruct (_it w) as [prevValue prevRev] eqn:E.
    destruct (strict_ne v prevValue); [|exact Hend].
    unfold depth. rewrite itAssign_written.
    destruct (itWritten_settles (v, (prevRev + 1)%Z) w) as (S1 & _).
    now rewrite (same_on_done S1).
  - unfold sourceDone, convertedDone.
    destruct (src_done w); [exact Hend|]. cbn. now rewrite <- Hit.
  - unfold convertedDone. now rewrite <- Hit.
Qed.

Lemma performAll_keeps_ends (w : World) (actions : list Action) (reason : value) :
  Settled w -> on_done w = Some reason ->
  on_done (performAll set get w actions) = Some reason.
Proof.
  revert w. induction actions as [|a actions IH]; intros w Hw Hend; [exact Hend|].
  cbn. apply IH.
  - now apply perform_settled.
  - now apply perform_keeps_ends.
Qed.


(** C4.  After any history and one more action, however that action
    ended, the slot for the value in flight is empty again and the nesting
    bound was not reached.  If [set] throws at a value written to the
    source, or [get] at a value written to the converted control, the
    write ends with that throw.  If [set] throws while the converted
    control assigns the restored value to its source, that is inside
    [try { src.it = backward } finally { backward = undefined }], the write
    to the converted control ends with that throw as well, the source
    holding the restored value and the slot empty.  From the world such an
    action leaves, a new value written to the source is converted and
    assigned once, and a new value written to the converted control is
    restored and assigned to the source once. *)
Theorem throw_releases_slot (source : value) (w0 : World)
    (actions : list Action) (a : Action) :
  convert set source = Some w0 ->
  let w := performAll set get w0 actions in
  let w' := fst (perform set get w a) in
  backward w' = VUndefined
  /\ snd (perform set get w a) <> Unfinished
  /\ (forall v e,
        src_done w = None -> strict_ne (src_it w) v = true ->
        strict_ne v VUndefined = true -> set v = Throws e ->
        snd (perform set get w (WriteSource v)) = Thrown e
        /\ backward (fst (perform set get w (WriteSource v))) = VUndefined)
  /\ (forall v e,
        _it_done w = None -> strict_ne v (convertedIt w) = true ->
        get v = Throws e ->
        snd (perform set get w (WriteConverted v)) = Thrown e
        /\ backward (fst (perform set get w (WriteConverted v))) = VUndefined)
  /\ (forall v restored e,
        _it_done w = None -> strict_ne v (convertedIt w) = true ->
        get v = Returns restored -> strict_ne restored restored = true ->
        set restored = Throws e ->
        snd (perform set get w (WriteConverted v)) = Thrown e
        /\ src_it (fst (perform set get w (WriteConverted v))) = restored
        /\ backward (fst (perform set get w (WriteConverted v))) = VUndefined)
  /\ (forall v converted,
        src_done w' = None -> strict_ne (src_it w') v = true ->
        strict_ne v VUndefined = true -> set v = Returns converted ->
        snd (perform set get w' (WriteSource v)) = Completed
        /\ convertedIt (fst (perform set get w' (WriteSource v))) = converted
        /\ itAssignments (effectsOf set get w' (WriteSource v)) = [converted])
  /\ (forall v restored,
        _it_done w' = None -> strict_ne v (convertedIt w') = true ->
        get v = Returns restored -> strict_eq restored restored = true ->
        snd (perform set get w' (WriteConverted v)) = Completed
        /\ strict_eq (src_it (fst (perform set get w' (WriteConverted v)))) restored = true
        /\ sourceAssignments (effectsOf set get w' (WriteConverted v)) = [restored]).
Proof.
  intros Hinit w w'.
  assert (Hw : Settled w)
    by (apply performAll_settled; now apply convert_settled with source).
  assert (Hw' : Settled w') by now apply perform_settled.
  split; [apply (slot_empty Hw')|].
  split; [apply perform_finishes|].
  split.
  { intros v e Hlive Hnew Hdef Hset. split.
    - apply source_write_throws; auto using slot_empty.
    - apply slot_empty. now apply perform_settled. }
  split.
  { intros v e Hlive Hnew Hget. split.
    - apply converted_write_throws; auto using revision_known.
    - apply slot_empty. now apply perform_settled. }
  split.
  { intros v restored e Hlive Hnew Hget Hself Hset.
    destruct (restored_write_throws w v restored e
                (revision_known Hw Hlive) Hlive (source_outlives Hw Hlive)
                Hnew Hget Hself Hset) as (H1 & H2 & _).
    split; [exact H1|]. split; [exact H2|].
    apply slot_empty. now apply perform_settled. }
  split.
  - intros v converted Hlive Hnew Hdef Hset.
    destruct (@source_write_crosses_once w' v converted)
      as (H1 & _ & H3 & _ & _ & H6 & _); auto using slot_empty.
    unfold convertedIt. rewrite H3. auto.
  - intros v restored Hlive Hnew Hget Hself.
    destruct (@converted_write_crosses_once w' v restored)
      as (H1 & _ & H3 & _ & _ & H6 & _); auto using slot_empty, revision_known.
Qed.

(** C3, as amended.  When the source of live controls is closed with a
    reason, the converted control and its change events end with that
    reason, and the end is announced once, whatever is done afterwards.
    Closing the converted control leaves the source open and untouched.
    An aspect whose stream combines the control's own events with others,
    as the data aspect does, ends with the control's reason too. *)
Theorem source_end_reaches_converted (source : value) (w0 : World)
    (actions more : list Action) (reason reason' : value)
    (control : nat) (mode : Lifecycle.Stream) :
  convert set source = Some w0 ->
  let w := performAll set get w0 actions in
  src_done w = None -> _it_done w = None ->
  let w' := fst (perform set get w (CloseSource reason)) in
  src_done w' = Some reason
  /\ _it_done w' = Some reason
  /\ on_done w' = Some reason
  /\ effectsOf set get w (CloseSource reason) = [OnDone reason]
  /\ on_done (performAll set get w' more) = Some reason
  /\ endsAnnounced (performAll set get w' more) = [reason]
  /\ src_done (fst (perform set get w (CloseConverted reason'))) = None
  /\ src_it (fst (perform set get w (CloseConverted reason'))) = src_it w
  /\ Lifecycle.ended (Lifecycle.closed control reason)
                     (Lifecycle.dataStream control mode)
     = Some reason.
Proof.
  intros Hinit w Hsrc Hit w'.
  assert (Hw : Settled w)
    by (apply performAll_settled; now apply convert_settled with source).
  assert (Hon : on_done w = None) by now rewrite (on_ends_with_it Hw).
  assert (Hw' : Settled w') by now apply perform_settled.
  assert (Hend : on_done w' = Some reason).
  { subst w'. cbn. unfold sourceDone, convertedDone. rewrite Hsrc. cbn.
    rewrite Hit. cbn. now rewrite Hon. }
  assert (Hlater : on_done (performAll set get w' more) = Some reason)
    by now apply performAll_keeps_ends.
  repeat split.
  - subst w'. cbn. unfold sourceDone, convertedDone. rewrite Hsrc. cbn.
    rewrite Hit. cbn. now rewrite Hon.
  - rewrite <- (on_ends_with_it Hw'). exact Hend.
  - exact Hend.
  - unfold effectsOf. cbn. unfold sourceDone, convertedDone. cbn.
    rewrite Hsrc. cbn. rewrite Hit. cbn. now rewrite Hon.
  - exact Hlater.
  - rewrite (end_announced_once (performAll_settled w' more Hw')).
    now rewrite Hlater.
  - cbn. unfold convertedDone. rewrite Hit. cbn. now rewrite Hon.
  - cbn. unfold convertedDone. rewrite Hit. cbn. now rewrite Hon.
  - cbn. unfold Lifecycle.closed. now rewrite Nat.eqb_refl.
Qed.

End Conversion.

(** The strict conversion over a source holding [1]: writing [-5] to
    the source makes [set] throw; writing ["x"] to the converted control
    restores it to [NaN], at which [set] throws inside the assignment to
    the source.  Either write ends with the throw, the slot is empty, and
    the next writes cross. *)
Lemma throw_releases_slot_witness :
  let w0 := {| src_it := VNum 1; src_done := None; _it := (VNum 2, 0%Z);
               _it_done := None; on_done := None; lastRev := 0%Z;
               backward := VUndefined; effects := [] |} in
  let w' := fst (perform plusOneStrict minusOneChecked w0 (WriteSource (VNum (-5)))) in
  snd (perform plusOneStrict minusOneChecked w0 (WriteSource (VNum (-5))))
  = Thrown (VStr "negative")
  /\ snd (perform plusOneStrict minusOneChecked w0 (WriteConverted (VStr "x")))
     = Thrown (VStr "not a number")
  /\ backward (fst (perform plusOneStrict minusOneChecked w0 (WriteConverted (VStr "x"))))
     = VUndefined
  /\ backward w' = VUndefined
  /\ convertedIt (fst (perform plusOneStrict minusOneChecked w' (WriteSource (VNum 7))))
     = VNum 8
  /\ sourceAssignments
       (effectsOf plusOneStrict minusOneChecked w' (WriteConverted (VNum 4)))
     = [VNum 3].
Proof.
  pose proof (@throw_releases_slot plusOneStrict minusOneChecked (VNum 1) _ []
                (WriteSource (VNum (-5))) eq_refl) as H.
  cbv zeta in H. destruct H as (H1 & _ & H3 & _ & H4 & H5 & H6).
  pose proof (H4 (VStr "x") VNaN (VStr "not a number")
                eq_refl eq_refl eq_refl eq_refl eq_refl) as (T1 & _ & T3).
  exact (conj (proj1 (H3 (VNum (-5)) (VStr "negative") eq_refl eq_refl eq_refl eq_refl))
           (conj T1 (conj T3
              (conj H1
                 (conj (proj1 (proj2 (H5 (VNum 7) (VNum 8) eq_refl eq_refl eq_refl eq_refl)))
                       (proj2 (proj2 (H6 (VNum 4) (VNum 3) eq_refl eq_refl eq_refl eq_refl)))))))).
Defined.


(** A source holding [1], written [5], then closed with ["gone"]. *)
Lemma source_end_reaches_converted_witness :
  let w0 := {| src_it := VNum 1; src_done := None; _it := (VNum 2, 0%Z);
               _it_done := None; on_done := None; lastRev := 0%Z;
               backward := VUndefined; effects := [] |} in
  let w := performAll plusOne minusOne w0 [WriteSource (VNum 5)] in
  let w' := fst (perform plusOne minusOne w (CloseSource (VStr "gone"))) in
  src_done w' = Some (VStr "gone")
  /\ _it_done w' = Some (VStr "gone")
  /\ on_done w' = Some (VStr "gone")
  /\ effectsOf plusOne minusOne w (CloseSource (VStr "gone")) = [OnDone (VStr "gone")]
  /\ on_done (performAll plusOne minusOne w' [CloseSource VNull; CloseConverted VNull])
     = Some (VStr "gone")
  /\ endsAnnounced (performAll plusOne minusOne w' [CloseSource VNull; CloseConverted VNull])
     = [VStr "gone"]
  /\ src_done (fst (perform plusOne minusOne w (CloseConverted (VStr "over")))) = None
  /\ src_it (fst (perform plusOne minusOne w (CloseConverted (VStr "over")))) = src_it w
  /\ Lifecycle.ended (Lifecycle.closed 7 (VStr "gone"))
                     (Lifecycle.dataStream 7 Lifecycle.afterEventOf)
     = Some (VStr "gone").
Proof.
  exact (@source_end_reaches_converted plusOne minusOne (VNum 1) _
           [WriteSource (VNum 5)] [CloseSource VNull; CloseConverted VNull]
           (VStr "gone") (VStr "over") 7 Lifecycle.afterEventOf
           eq_refl eq_refl eq_refl).
Defined.

(** C3 as stated fails: a control that is neither an element nor a
    container is closed with ["gone"], and the stream its status aspect
    is bound by has not ended. *)
Lemma status_outlives_plain_control :
  Lifecycle.closed 0 (VStr "gone") 0 = Some (VStr "gone")
  /\ Lifecycle.ended (Lifecycle.closed 0 (VStr "gone"))
                     (Lifecycle.elementFlagsStream 0 false)
     = None.
Proof. split; reflexivity. Qed.

(** C1 fails on the code: the source of the specification's example,
    holding [1] and converted by [x => x + 1] and [y => y - 1], is written
    [undefined].  The source changes; [set] is not called, [_it] is not
    assigned, and the converted control still reads [2]. *)
Theorem undefined_source_write_is_lost :
  option_map
    (fun w0 =>
       (src_it (fst (perform plusOne minusOne w0 (WriteSource VUndefined))),
        convertedIt (fst (perform plusOne minusOne w0 (WriteSource VUndefined))),
        setCalls (effectsOf plusOne minusOne w0 (WriteSource VUndefined)),
        itAssignments (effectsOf plusOne minusOne w0 (WriteSource VUndefined))))
    (convert plusOne (VNum 1))
  = Some (VUndefined, VNum 2, [], []).
Proof. reflexivity. Qed.

End ConvertedFacts.

(** ** Aspects of a control *)

Module AspectFacts.
Import Aspects.

Lemma timesApplied_note (control aspect : nat) (call : nat * nat) (w : World) :
  timesApplied call.1 call.2 (noteApplyTo control aspect w)
  = if decide ((control, aspect) = call)
    then S (timesApplied call.1 call.2 w)
    else timesApplied call.1 call.2 w.
Proof.
  destruct call as [c k]. unfold timesApplied, noteApplyTo.
  cbn [applyToCalls fst snd]. rewrite filter_cons. now destruct (decide _).
Qed.

Section Controls.

Variable applyTo : nat -> nat -> Prog Applied.
Variable convertTo : Applied -> nat -> Prog (option Applied).
Variable converted : nat -> option (nat * option (nat -> Prog (option Applied))).

Local Abbreviation exec n p w := (Aspects.exec applyTo convertTo converted n p w).
Local Abbreviation _aspect := (Aspects._aspect applyTo convertTo converted).
Local Abbreviation aspect := (Aspects.aspect applyTo convertTo converted).
Local Abbreviation _applyAspect := (Aspects._applyAspect convertTo converted).

Lemma exec_S (n : nat) (R : Type) (p : Prog R) (w : World) :
  exec (S n) p w
  = match p with
    | Ret r => Some (r, w)
    | New next => exec n (next (nextRef w)) (allocate w)
    | LookUp control aspect next =>
        match _aspect n control aspect w with
        | Some (applied, w) => exec n (next applied) w
        | None => None
        end
    end.
Proof. reflexivity. Qed.

Lemma _aspect_S (n : nat) (this aspect : nat) (w : World) :
  _aspect (S n) this aspect w
  = match _aspects w !! (this, aspect) with
    | Some existing => Some (existing, w)
    | None =>
        match exec n (_applyAspect this aspect) w with
        | None => None
        | Some (Some applied, w) => Some (applied, cache this aspect applied w)
        | Some (None, w) =>
            match exec n (applyTo aspect this) (noteApplyTo this aspect w) with
            | None => None
            | Some (applied, w) => Some (applied, cache this aspect applied w)
            end
        end
    end.
Proof. reflexivity. Qed.

(** A lookup that finds the aspect in [_aspects] returns it and touches
    nothing. *)
Lemma cached_lookup (n : nat) (this aspect : nat) (w : World) (applied : Applied) :
  _aspects w !! (this, aspect) = Some applied ->
  _aspect (S n) this aspect w = Some (applied, w).
Proof. intros Hc. now rewrite _aspect_S, Hc. Qed.

(** A lookup leaves what it returns in [_aspects]. *)
Lemma lookup_caches (n : nat) (this aspect : nat) (w w' : World) (applied : Applied) :
  _aspect n this aspect w = Some (applied, w') ->
  _aspects w' !! (this, aspect) = Some applied.
Proof.
  destruct n as [|n]; [discriminate|]. rewrite _aspect_S.
  destruct (_aspects w !! (this, aspect)) eqn:Hc.
  - now intros [= <- <-].
  - destruct (exec n (_applyAspect this aspect) w) as [[[a|] w1]|]; [| |discriminate].
    + intros [= <- <-]. cbn. apply lookup_insert_eq.
    + destruct (exec n (applyTo aspect this) _) as [[a w2]|]; [|discriminate].
      intros [= <- <-]. cbn. apply lookup_insert_eq.
Qed.

Lemma kept_both (n : nat) (call : nat * nat) (applied : Applied) :
  (forall (R : Type) (p : Prog R) (w w' : World) (r : R),
     _aspects w !! call = Some applied ->
     exec n p w = Some (r, w') -> kept call applied w w')
  /\ (forall (this aspect : nat) (w w' : World) (a : Applied),
        _aspects w !! call = Some applied ->
        _aspect n this aspect w = Some (a, w') -> kept call applied w w').
Proof.
  induction n as [|n [IHe IHa]]; [split; discriminate|]. split.
  - intros R p w w' r Hc. rewrite exec_S. destruct p as [r0|c k next|next].
    + intros [= <- <-]. now split.
    + destruct (_aspect n c k w) as [[a w1]|] eqn:Ha; [|discriminate].
      intros He. destruct (IHa _ _ _ _ _ Hc Ha) as [Hc1 Ht1].
      destruct (IHe _ _ _ _ _ Hc1 He) as [Hc2 Ht2].
      split; [exact Hc2|congruence].
    + intros He. now apply (IHe _ _ (allocate w) _ _ Hc He).
  - intros this k w w' a Hc. rewrite _aspect_S.
    destruct (_aspects w !! (this, k)) eqn:Hmiss.
    { intros [= <- <-]. now split. }
    assert (Hne : (this, k) <> call) by congruence.
    destruct (exec n (_applyAspect this k) w) as [[[a1|] w1]|] eqn:He1;
      [| |discriminate].
    + intros [= <- <-]. destruct (IHe _ _ _ _ _ Hc He1) as [Hc1 Ht1].
      split; [|exact Ht1]. cbn. now rewrite lookup_insert_ne.
    + destruct (exec n (applyTo k this) _) as [[a2 w2]|] eqn:He2; [|discriminate].
      intros [= <- <-]. destruct (IHe _ _ _ _ _ Hc He1) as [Hc1 Ht1].
      assert (Hc1' : _aspects (noteApplyTo this k w1) !! call = Some applied)
        by exact Hc1.
      destruct (IHe _ _ _ _ _ Hc1' He2) as [Hc2 Ht2].
      split; [cbn; now rewrite lookup_insert_ne|].
      change (timesApplied call.1 call.2 (cache this k a2 w2))
        with (timesApplied call.1 call.2 w2).
      rewrite Ht2, timesApplied_note. destruct (decide _); [contradiction|exact Ht1].
Qed.

Lemma unchanged_refl (call : nat * nat) (w : World) : unchanged call w w.
Proof. now split. Qed.

Lemma unchanged_trans (call : nat * nat) (w1 w2 w3 : World) :
  unchanged call w1 w2 -> unchanged call w2 w3 -> unchanged call w1 w3.
Proof. intros [H1 H2] [H3 H4]. split; congruence. Qed.

Lemma unchanged_cache (call : nat * nat) (this k : nat) (a : Applied) (w : World) :
  (this, k) <> call -> unchanged call w (cache this k a w).
Proof. intros Hne. split; [cbn; now rewrite lookup_insert_ne|reflexivity]. Qed.

Lemma unchanged_note (call : nat * nat) (this k : nat) (w : World) :
  (this, k) <> call -> unchanged call w (noteApplyTo this k w).
Proof.
  intros Hne. split; [reflexivity|].
  rewrite timesApplied_note. now destruct (decide _).
Qed.

Lemma appliedOnce_unchanged (call : nat * nat) (w w' : World) :
  unchanged call w w' -> appliedOnce call w -> appliedOnce call w'.
Proof. intros [H1 H2] [H3 H4]. split; rewrite ?H1, H2; auto. Qed.

(** More steps than enough change nothing. *)
Lemma more_steps_both (n : nat) :
  (forall (R : Type) (p : Prog R) (w w' : World) (r : R),
     exec n p w = Some (r, w') -> exec (S n) p w = Some (r, w'))
  /\ (forall (this k : nat) (w w' : World) (a : Applied),
        _aspect n this k w = Some (a, w') -> _aspect (S n) this k w = Some (a, w')).
Proof.
  induction n as [|n [IHe IHa]]; [split; discriminate|]. split.
  - intros R p w w' r. rewrite (exec_S (S n)), (exec_S n).
    destruct p as [r0|c k next|next]; [trivial| |apply IHe].
    destruct (_aspect n c k w) as [[a w1]|] eqn:Ha; [|discriminate].
    rewrite (IHa _ _ _ _ _ Ha). apply IHe.
  - intros this k w w' a. rewrite (_aspect_S (S n)), (_aspect_S n).
    destruct (_aspects w !! (this, k)); [trivial|].
    destruct (exec n (_applyAspect this k) w) as [[[a1|] w1]|] eqn:He1;
      [| |discriminate]; rewrite (IHe _ _ _ _ _ He1); [trivial|].
    destruct (exec n (applyTo k this) _) as [[a2 w2]|] eqn:He2; [|discriminate].
    now rewrite (IHe _ _ _ _ _ He2).
Qed.

Lemma exec_more_steps (n m : nat) (R : Type) (p : Prog R) (w w' : World) (r : R) :
  n <= m -> exec n p w = Some (r, w') -> exec m p w = Some (r, w').
Proof.
  induction 1 as [|m _ IH]; [trivial|].
  intros H. apply more_steps_both. now apply IH.
Qed.

Lemma _aspect_more_steps (n m this k : nat) (w w' : World) (a : Applied) :
  n <= m -> _aspect n this k w = Some (a, w') -> _aspect m this k w = Some (a, w').
Proof.
  induction 1 as [|m _ IH]; [trivial|].
  intros H. apply more_steps_both. now apply IH.
Qed.

Lemma appliedOnce_cache (this k : nat) (a : Applied) (w : World) :
  timesApplied this k w <= 1 -> appliedOnce (this, k) (cache this k a w).
Proof.
  intros Hw. split.
  - exact Hw.
  - intros _. cbn. rewrite lookup_insert_eq. eauto.
Qed.

Section Ranked.

(** No aspect needs itself: what applies an aspect to a control only
    looks up aspects of lower rank. *)
Variable rank : nat * nat -> nat.
Hypothesis applyTo_below :
  forall control k, below rank (rank (control, k)) (applyTo k control).
Hypothesis _applyAspect_below :
  forall control k, below rank (rank (control, k)) (_applyAspect control k).

(** Running what is below rank [N] leaves the aspects from that rank on
    as they are, and keeps those under it applied at most once. *)
Lemma ranked_both (n : nat) :
  (forall (N : nat) (R : Type) (p : Prog R) (w w' : World) (r : R),
     below rank N p -> exec n p w = Some (r, w') ->
     (forall call, N <= rank call -> unchanged call w w')
     /\ ((forall call, rank call < N -> appliedOnce call w) ->
         forall call, rank call < N -> appliedOnce call w'))
  /\ (forall (N this k : nat) (w w' : World) (a : Applied),
        rank (this, k) < N -> _aspect n this k w = Some (a, w') ->
        (forall call, N <= rank call -> unchanged call w w')
        /\ ((forall call, rank call < N -> appliedOnce call w) ->
            forall call, rank call < N -> appliedOnce call w')).
Proof.
  induction n as [|n [IHe IHa]]; [split; discriminate|]. split.
  - intros N R p w w' r Hp. rewrite exec_S.
    destruct Hp as [r0|c k next Hck Hnext|next Hnext].
    + intros [= <- <-]. split; [intros; apply unchanged_refl|auto].
    + destruct (_aspect n c k w) as [[a w1]|] eqn:Ha; [|discriminate].
      intros He. destruct (IHa _ _ _ _ _ _ Hck Ha) as [U1 G1].
      destruct (IHe _ _ _ _ _ _ (Hnext a) He) as [U2 G2].
      split; [|auto].
      intros call Hc. eapply unchanged_trans; [apply U1|apply U2]; exact Hc.
    + intros He. destruct (IHe _ _ _ _ _ _ (Hnext (nextRef w)) He) as [U G].
      split; [exact U|exact G].
  - intros N this k w w' a Hck. rewrite _aspect_S.
    destruct (_aspects w !! (this, k)) eqn:Hmiss.
    { intros [= <- <-]. split; [intros; apply unchanged_refl|auto]. }
    destruct (exec n (_applyAspect this k) w) as [[[a1|] w1]|] eqn:He1;
      [| |discriminate].
    + intros [= <- <-].
      destruct (IHe _ _ _ _ _ _ (_applyAspect_below this k) He1) as [U1 G1].
      split.
      * intros call Hc.
        eapply unchanged_trans; [apply U1; lia|].
        apply unchanged_cache. intros <-. lia.
      * intros Hw call Hc. destruct (decide ((this, k) = call)) as [<-|Hne].
        -- destruct (U1 (this, k) ltac:(lia)) as [_ Ht].
           apply appliedOnce_cache. cbn [fst snd] in Ht. rewrite Ht.
           apply (Hw (this, k) Hc).
        -- eapply appliedOnce_unchanged; [now apply unchanged_cache|].
           destruct (Nat.lt_ge_cases (rank call) (rank (this, k))) as [Hlt|Hge].
           ++ apply G1; [|exact Hlt]. intros c' Hc'. apply Hw. lia.
           ++ eapply appliedOnce_unchanged; [apply U1; exact Hge|now apply Hw].
    + destruct (exec n (applyTo k this) _) as [[a2 w2]|] eqn:He2; [|discriminate].
      intros [= <- <-].
      destruct (IHe _ _ _ _ _ _ (_applyAspect_below this k) He1) as [U1 G1].
      destruct (IHe _ _ _ _ _ _ (applyTo_below this k) He2) as [U2 G2].
      assert (Hothers : forall call, (this, k) <> call ->
                rank (this, k) <= rank call ->
                unchanged call w (cache this k a2 w2)).
      { intros call Hne Hge.
        apply unchanged_trans with w1; [apply U1; exact Hge|].
        apply unchanged_trans with (noteApplyTo this k w1);
          [apply unchanged_note; exact Hne|].
        apply unchanged_trans with w2; [apply U2; exact Hge|].
        apply unchanged_cache; exact Hne. }
      split.
      * intros call Hc. apply Hothers; [intros <-|]; lia.
      * intros Hw call Hc. destruct (decide ((this, k) = call)) as [<-|Hne].
        -- destruct (U1 (this, k) ltac:(lia)) as [_ Ht1].
           destruct (U2 (this, k) ltac:(lia)) as [_ Ht2].
           rewrite (timesApplied_note this k (this, k)) in Ht2.
           destruct (decide _) as [_|]; [|contradiction].
           assert (Hzero : timesApplied this k w = 0).
           { destruct (Hw (this, k) Hc) as [_ Hsome]. cbn [fst snd] in Hsome.
             destruct (timesApplied this k w); [reflexivity|].
             destruct Hsome as [x Hx]; [lia|congruence]. }
           apply appliedOnce_cache. cbn [fst snd] in *. lia.
        -- destruct (Nat.lt_ge_cases (rank call) (rank (this, k))) as [Hlt|Hge].
           ++ eapply appliedOnce_unchanged; [now apply unchanged_cache|].
              apply G2; [|exact Hlt]. intros c' Hc'.
              eapply appliedOnce_unchanged;
                [apply unchanged_note; intros <-; lia|].
              apply G1; [|exact Hc']. intros c'' Hc''. apply Hw. lia.
           ++ eapply appliedOnce_unchanged; [now apply Hothers|now apply Hw].
Qed.

Lemma emptyWorld_appliedOnce (call : nat * nat) : appliedOnce call emptyWorld.
Proof. split; cbn; [lia|intros H; inversion H]. Qed.

(** With enough steps, what is below some rank returns. *)
Lemma ranked_returns (N : nat) :
  forall (R : Type) (p : Prog R) (w : World),
    below rank N p -> exists n r w', exec n p w = Some (r, w').
Proof.
  induction N as [N IHN] using lt_wf_ind.
  assert (Hlookup : forall this k w, rank (this, k) < N ->
            exists n a w', _aspect n this k w = Some (a, w')).
  { intros this k w Hck.
    destruct (_aspects w !! (this, k)) as [a|] eqn:Hc.
    { exists 1, a, w. now apply cached_lookup. }
    destruct (IHN _ Hck _ _ w (_applyAspect_below this k)) as (n1 & r1 & w1 & He1).
    destruct r1 as [a1|].
    { exists (S n1), a1, (cache this k a1 w1). now rewrite _aspect_S, Hc, He1. }
    destruct (IHN _ Hck _ _ (noteApplyTo this k w1) (applyTo_below this k))
      as (n2 & a2 & w2 & He2).
    exists (S (n1 `max` n2)), a2, (cache this k a2 w2).
    rewrite _aspect_S, Hc.
    rewrite (exec_more_steps n1 (n1 `max` n2) _ _ _ _ _ ltac:(lia) He1).
    now rewrite (exec_more_steps n2 (n1 `max` n2) _ _ _ _ _ ltac:(lia) He2). }
  intros R p w Hp. revert w.
  induction Hp as [r|c k next Hck _ IH|next _ IH]; intros w.
  - now exists 1, r, w.
  - destruct (Hlookup c k w Hck) as (n1 & a & w1 & Ha).
    destruct (IH a w1) as (n2 & r & w2 & He).
    exists (S (n1 `max` n2)), r, w2. rewrite exec_S.
    rewrite (_aspect_more_steps n1 (n1 `max` n2) _ _ _ _ _ ltac:(lia) Ha).
    now apply (exec_more_steps n2 (n1 `max` n2) _ _ _ _ _ ltac:(lia) He).
  - destruct (IH (nextRef w) (allocate w)) as (n & r & w' & He).
    exists (S n), r, w'. now rewrite exec_S.
Qed.

Lemma exec_appliedOnce (N n : nat) (R : Type) (p : Prog R) (w w' : World) (r : R) :
  below rank N p -> exec n p w = Some (r, w') ->
  (forall call, appliedOnce call w) -> forall call, appliedOnce call w'.
Proof.
  intros Hp He Hw call.
  destruct (proj1 (ranked_both n) _ _ _ _ _ _ Hp He) as [U G].
  destruct (Nat.lt_ge_cases (rank call) N) as [Hlt|Hge].
  - apply G; auto.
  - eapply appliedOnce_unchanged; [apply U; exact Hge|apply Hw].
Qed.

Lemma _aspect_appliedOnce (N n this k : nat) (w w' : World) (a : Applied) :
  rank (this, k) < N -> _aspect n this k w = Some (a, w') ->
  (forall call, appliedOnce call w) -> forall call, appliedOnce call w'.
Proof.
  intros Hck Ha Hw call.
  destruct (proj2 (ranked_both n) _ _ _ _ _ _ Hck Ha) as [U G].
  destruct (Nat.lt_ge_cases (rank call) N) as [Hlt|Hge].
  - apply G; auto.
  - eapply appliedOnce_unchanged; [apply U; exact Hge|apply Hw].
Qed.

Lemma ranked_lookup_returns (N this k : nat) (w : World) :
  rank (this, k) < N -> exists n a w', _aspect n this k w = Some (a, w').
Proof.
  intros Hck.
  destruct (ranked_returns N _ (LookUp this k Ret) w) as (n & a & w' & He).
  { constructor; [exact Hck|constructor]. }
  destruct n as [|n]; [discriminate|]. rewrite exec_S in He.
  destruct (_aspect n this k w) as [[a0 w0]|] eqn:Ha; [|discriminate].
  destruct n as [|n]; [discriminate|]. injection He as -> ->.
  now exists (S n), a, w'.
Qed.

(** C2, as amended.  No aspect needs itself to be applied.  Take the
    controls after any history [p] that began with no
    aspect applied, and any control and aspect.  Looking the aspect up
    returns (given enough steps, and then whatever the number of steps),
    and leaves what it returned in [_aspects], its instance being [null]
    or not.  Whatever [q] is run afterwards, every later lookup returns
    that very result, changes nothing and calls nothing; and [applyTo] has
    been called at most once for any control and aspect. *)
Theorem aspect_applied_once (N n : nat) (R R' : Type) (p : Prog R) (q : Prog R')
    (r : R) (w : World) (this k : nat) :
  below rank N p -> exec n p emptyWorld = Some (r, w) ->
  rank (this, k) < N -> below rank N q ->
  exists n1 applied w1,
    (forall m, n1 <= m -> _aspect m this k w = Some (applied, w1))
    /\ _aspects w1 !! (this, k) = Some applied
    /\ timesApplied this k w1 <= 1
    /\ (exists n2 r' w2, exec n2 q w1 = Some (r', w2))
    /\ forall n2 r' w2,
         exec n2 q w1 = Some (r', w2) ->
         (forall m, _aspect (S m) this k w2 = Some (applied, w2))
         /\ (forall m, aspect (S m) this k w2 = Some (instance applied, w2))
         /\ timesApplied this k w2 = timesApplied this k w1
         /\ forall control aspect', timesApplied control aspect' w2 <= 1.
Proof.
  intros Hp Hexec Hck Hq.
  destruct (ranked_lookup_returns N this k w Hck) as (n1 & applied & w1 & Hfirst).
  assert (Hw : forall call, appliedOnce call w)
    by exact (exec_appliedOnce N n R p emptyWorld w r Hp Hexec emptyWorld_appliedOnce).
  assert (Hw1 : forall call, appliedOnce call w1)
    by exact (_aspect_appliedOnce N n1 this k w w1 applied Hck Hfirst Hw).
  assert (Hcached : _aspects w1 !! (this, k) = Some applied)
    by exact (lookup_caches n1 this k w w1 applied Hfirst).
  exists n1, applied, w1.
  split; [intros m Hm; exact (_aspect_more_steps n1 m this k w w1 applied Hm Hfirst)|].
  split; [exact Hcached|].
  split; [apply (Hw1 (this, k))|].
  split; [exact (ranked_returns N R' q w1 Hq)|].
  intros n2 r' w2 Hlater.
  destruct (proj1 (kept_both n2 (this, k) applied) _ _ _ _ _ Hcached Hlater)
    as [Hkept Htimes].
  assert (Hagain : forall m, _aspect (S m) this k w2 = Some (applied, w2))
    by (intros m; exact (cached_lookup m this k w2 applied Hkept)).
  split; [exact Hagain|].
  split; [intros m; unfold Aspects.aspect; now rewrite Hagain|].
  split; [exact Htimes|].
  intros control aspect'.
  apply (exec_appliedOnce N n2 R' q w1 w2 r' Hq Hlater Hw1 (control, aspect')).
Qed.

End Ranked.

End Controls.

Lemma twoAspects_below (control k : nat) :
  below twoAspectsRank (twoAspectsRank (control, k)) (twoAspects k control).
Proof.
  destruct k as [|[|k]]; cbn; try apply below_Ret.
  apply below_LookUp; [unfold twoAspectsRank; cbn; lia|].
  intros _. apply below_New. intros ref. apply below_Ret.
Qed.

Lemma oneConverted_below (control k : nat) :
  below twoAspectsRank (twoAspectsRank (control, k))
        (_applyAspect declines oneConverted control k).
Proof.
  unfold _applyAspect, oneConverted.
  destruct control as [|[|control]]; cbn; try apply below_Ret.
  apply below_LookUp; [unfold twoAspectsRank; cbn; lia|].
  intros applied. apply below_Ret.
Qed.

(** The status-like aspect of control [0] has been looked up; now it is
    looked up on control [1], which is converted from control [0], and
    afterwards once more, together with the container-like aspect. *)
Lemma aspect_applied_once_witness :
  let status0 := {| instance := VObj 0 []; convertsBy := 1 |} in
  let w := cache 0 1 status0
             (allocate
                (cache 0 0 {| instance := VNull; convertsBy := 0 |}
                   (noteApplyTo 0 0 (noteApplyTo 0 1 emptyWorld)))) in
  exists n1 applied w1,
    (forall m, n1 <= m ->
               _aspect twoAspects declines oneConverted m 1 1 w
               = Some (applied, w1))
    /\ _aspects w1 !! (1, 1) = Some applied
    /\ timesApplied 1 1 w1 <= 1
    /\ (exists n2 r' w2,
          exec twoAspects declines oneConverted n2
               (LookUp 1 1 (fun _ => LookUp 0 0 Ret)) w1 = Some (r', w2))
    /\ forall n2 r' w2,
         exec twoAspects declines oneConverted n2
              (LookUp 1 1 (fun _ => LookUp 0 0 Ret)) w1 = Some (r', w2) ->
         (forall m, _aspect twoAspects declines oneConverted (S m) 1 1 w2
                    = Some (applied, w2))
         /\ (forall m, aspect twoAspects declines oneConverted (S m) 1 1 w2
                       = Some (instance applied, w2))
         /\ timesApplied 1 1 w2 = timesApplied 1 1 w1
         /\ forall control aspect', timesApplied control aspect' w2 <= 1.
Proof.
  apply (@aspect_applied_once twoAspects declines oneConverted twoAspectsRank
           twoAspects_below oneConverted_below 4 10 _ _ (LookUp 0 1 Ret)
           (LookUp 1 1 (fun _ => LookUp 0 0 Ret))
           {| instance := VObj 0 []; convertsBy := 1 |}).
  - apply below_LookUp; [unfold twoAspectsRank; cbn; lia|].
    intros applied. apply below_Ret.
  - vm_compute. reflexivity.
  - unfold twoAspectsRank; cbn; lia.
  - apply below_LookUp; [unfold twoAspectsRank; cbn; lia|].
    intros _. apply below_LookUp; [unfold twoAspectsRank; cbn; lia|].
    intros applied. apply below_Ret.
Defined.

(** C2 as stated fails for an aspect that needs itself: the first
    lookup of aspect [0] on the plain control [0] calls [applyTo], which
    looks the same aspect up; that lookup finds nothing stored yet, calls
    [applyTo] again and returns the instance built there (object [1]).
    When the outer call returns, its instance (object [0]) replaces that
    one in [_aspects].  [applyTo] was called twice for one control and
    aspect, and two lookups returned different instances. *)
Lemma needy_aspect_is_applied_twice :
  let inner := _aspect needsItself declines noneConverted 3 0 0 (allocate (noteApplyTo 0 0 emptyWorld)) in
  let outer := _aspect needsItself declines noneConverted 6 0 0 emptyWorld in
  let again := match outer with
               | Some (_, w) => _aspect needsItself declines noneConverted 1 0 0 w
               | None => None
               end in
  option_map (fun r => instance r.1) inner = Some (VObj 1 [])
  /\ option_map (fun r => instance r.1) outer = Some (VObj 0 [])
  /\ option_map (fun r => instance r.1) again = Some (VObj 0 [])
  /\ option_map (fun r => timesApplied 0 0 r.2) outer = Some 2
  /\ option_map (fun r => applyToCalls r.2) outer = Some [(0, 0); (0, 0)].
Proof. cbv zeta. repeat split; vm_compute; reflexivity. Qed.

End AspectFacts.

(** * Further properties of the code *)

(** ** Status flags: aggregation, focus and resets *)

Module StatusLaws.
Import Status StatusFacts.

Lemma existsb_same (p : Flags -> bool) (l l' : list Flags) :
  (forall f, In f l <-> In f l') -> existsb p l = existsb p l'.
Proof.
  intros H. apply eq_true_iff_eq. rewrite !existsb_exists.
  split; intros (x & Hin & Hp); exists x; (split; [now apply H|exact Hp]).
Qed.

Lemma existsb_groups (p : Flags -> bool) (groups : list (list Flags)) :
  existsb p (concat groups) = existsb (existsb p) groups.
Proof.
  induction groups as [|g groups IH]; cbn; [reflexivity|].
  now rewrite existsb_app, IH.
Qed.

Lemma touched_absorbs (g : list Flags) :
  existsb (fun f => touched f || hasFocus f || edited f) g
  || existsb hasFocus g || existsb edited g
  = existsb (fun f => touched f || hasFocus f || edited f) g.
Proof.
  induction g as [|[h t e] g IH]; cbn; [reflexivity|].
  destruct (existsb (fun f => touched f || hasFocus f || edited f) g),
    (existsb hasFocus g), (existsb edited g), h, t, e; cbn in *; congruence.
Qed.

Lemma orFold_groups (groups : list (list Flags)) :
  orFold (map orFold groups) = orFold (concat groups).
Proof.
  unfold orFold at 1 3. rewrite !existsb_groups. f_equal.
  - induction groups as [|g groups IH]; cbn; [reflexivity|]. now rewrite IH.
  - induction groups as [|g groups IH]; cbn; [reflexivity|].
    now rewrite IH, touched_absorbs.
  - induction groups as [|g groups IH]; cbn; [reflexivity|]. now rewrite IH.
Qed.

Lemma updateFlags_fields (f : Flags) (h e : bool) :
  hasFocus (updateFlags f h e) = h
  /\ (touched f = true -> touched (updateFlags f h e) = true)
  /\ (edited f = true -> edited (updateFlags f h e) = true).
Proof. destruct f as [fh ft fe], h, e; cbn; auto. Qed.

Lemma stream_event_keeps (s : InControlStatus) (ev : Event) :
  isStreamEvent ev = true ->
  (touched (_flags s) = true -> touched (_flags (handle s ev)) = true)
  /\ (edited (_flags s) = true -> edited (_flags (handle s ev)) = true).
Proof.
  intros Hev. unfold handle.
  destruct ev as [h|e| | |]; try discriminate; destruct (feed s) as [focus input|fs];
    auto; cbn; unfold elementFlags; apply updateFlags_fields.
Qed.

Lemma markTouched_hasFocus (arg : option bool) (s : InControlStatus) :
  hasFocus (_flags (markTouched arg s)) = hasFocus (_flags s).
Proof.
  unfold markTouched. destruct (orTrue arg), (touched (_flags s)); reflexivity.
Qed.

Lemma markEdited_hasFocus (arg : option bool) (s : InControlStatus) :
  hasFocus (_flags (markEdited arg s)) = hasFocus (_flags s).
Proof.
  unfold markEdited. destruct (orTrue arg), (edited (_flags s)); reflexivity.
Qed.

(** What [hasFocus] is bound to. *)
Lemma feedSends_hasFocus (fd : Feed) (s : InControlStatus) :
  hasFocus (_flags (feedSends fd s))
  = match fd with
    | ElementFeed focus _ => focus
    | ContainerFeed statuses => existsb hasFocus statuses
    end
  /\ feed (feedSends fd s) = fd.
Proof.
  split; [|reflexivity]. destruct fd as [focus input|fs]; cbn.
  - apply updateFlags_fields.
  - unfold containerFlags. now rewrite combineFlags_orFold.
Qed.

Lemma handle_hasFocus (s : InControlStatus) (ev : Event) :
  hasFocus (_flags s)
  = match feed s with
    | ElementFeed focus _ => focus
    | ContainerFeed statuses => existsb hasFocus statuses
    end ->
  hasFocus (_flags (handle s ev))
  = match feed (handle s ev) with
    | ElementFeed focus _ => focus
    | ContainerFeed statuses => existsb hasFocus statuses
    end.
Proof.
  intros Hs. unfold handle.
  destruct ev as [h|e|fs|arg|arg].
  - destruct (feed s) eqn:E.
    + destruct (feedSends_hasFocus (ElementFeed h input) s) as [H1 H2]. now rewrite H1, H2.
    + now rewrite E.
  - destruct (feed s) eqn:E.
    + destruct (feedSends_hasFocus (ElementFeed focus e) s) as [H1 H2]. now rewrite H1, H2.
    + now rewrite E.
  - destruct (feed s) eqn:E.
    + now rewrite E.
    + destruct (feedSends_hasFocus (ContainerFeed fs) s) as [H1 H2]. now rewrite H1, H2.
  - destruct (feed s) eqn:E;
      now rewrite markTouched_hasFocus, markTouched_feed, E.
  - destruct (feed s) eqn:E;
      now rewrite markEdited_hasFocus, markEdited_feed, E.
Qed.

(** X1.  Combining the combined flags of groups of controls gives what
    combining the flags of all the controls at once gives: as long as no
    container's own status is marked, the status of a container of
    containers is the status of the container of all their controls. *)
Theorem combineFlags_flattens (groups : list (list Flags)) :
  combineFlags (map combineFlags groups) = combineFlags (concat groups).
Proof.
  rewrite (map_ext combineFlags orFold combineFlags_orFold).
  rewrite !combineFlags_orFold. apply orFold_groups.
Qed.

(** X2.  [combineFlags] depends on which flags occur among its
    arguments, not on their order nor on how often each occurs. *)
Theorem combineFlags_ignores_order (l l' : list Flags) :
  (forall f, In f l <-> In f l') -> combineFlags l = combineFlags l'.
Proof.
  intros H. rewrite !combineFlags_orFold. unfold orFold.
  f_equal; now apply existsb_same.
Qed.

(** A focused control and an edited one, in the other order and with
    the first one twice. *)
Lemma combineFlags_ignores_order_witness :
  combineFlags [mkFlags true true false; mkFlags false true true]
  = combineFlags [mkFlags false true true; mkFlags true true false;
                  mkFlags false true true].
Proof.
  apply combineFlags_ignores_order.
  intros f; simpl; tauto.
Defined.

(** X3.  [combineFlags] of no flags is the default flags, and
    [combineFlags] of the flags of one status, whatever has happened to
    that status, is exactly those flags: a container without controls
    reports the default flags and a container with one control reports
    that control's flags, until the container's own status is marked. *)
Theorem lone_control_container (fd : Feed) (evs : list Event) :
  combineFlags [] = defaultFlags
  /\ combineFlags [_flags (run (create fd) evs)] = _flags (run (create fd) evs).
Proof.
  split; [reflexivity|].
  pose proof (run_consistent (create fd) evs (create_consistent fd)) as H.
  apply andb_true_iff in H as [H _].
  destruct (_flags (run (create fd) evs)) as [h t e].
  destruct h, t, e; try reflexivity; discriminate.
Qed.

(** X4.  Events of the focus and of the element's input never take
    [touched] or [edited] away, from whatever flags the status holds; only
    [markTouched(false)] and [markEdited(false)] do. *)
Theorem stream_events_never_lower (s : InControlStatus) (evs : list Event) :
  forallb isStreamEvent evs = true ->
  (touched (_flags s) = true -> touched (_flags (run s evs)) = true)
  /\ (edited (_flags s) = true -> edited (_flags (run s evs)) = true).
Proof.
  revert s. induction evs as [|ev evs IH]; intros s Hevs; [split; trivial|].
  cbn in Hevs. apply andb_true_iff in Hevs as [Hev Hevs].
  destruct (stream_event_keeps s ev Hev) as [Ht He].
  destruct (IH (handle s ev) Hevs) as [Ht' He']. cbn. split; auto.
Qed.

(** An element that was edited while focused, then loses focus and gets
    a value assigned by the program. *)
Lemma stream_events_never_lower_witness :
  edited (_flags (run (run (create (ElementFeed true false)) [InputSent true])
                      [FocusSent false; InputSent false])) = true.
Proof.
  exact (proj2 (stream_events_never_lower
                  (run (create (ElementFeed true false)) [InputSent true])
                  [FocusSent false; InputSent false] eq_refl) eq_refl).
Defined.

(** X5.  Whatever happens to a status aspect, its [hasFocus] flag is what
    its stream last told: the latest value of the focus aspect for a
    control that is no container, and whether some control of the latest
    snapshot has focus for a container.  [markTouched] and [markEdited]
    never change it. *)
Theorem hasFocus_mirrors_feed (fd : Feed) (evs : list Event) :
  hasFocus (_flags (run (create fd) evs))
  = match feed (run (create fd) evs) with
    | ElementFeed focus _ => focus
    | ContainerFeed statuses => existsb hasFocus statuses
    end.
Proof.
  assert (H : forall s,
            hasFocus (_flags s)
            = match feed s with
              | ElementFeed focus _ => focus
              | ContainerFeed statuses => existsb hasFocus statuses
              end ->
            hasFocus (_flags (run s evs))
            = match feed (run s evs) with
              | ElementFeed focus _ => focus
              | ContainerFeed statuses => existsb hasFocus statuses
              end).
  { induction evs as [|ev evs IH]; intros s Hs; [exact Hs|].
    cbn. apply IH. now apply handle_hasFocus. }
  apply H. unfold create.
  destruct (feedSends_hasFocus fd {| _flags := defaultFlags; feed := fd; sent := [] |})
    as [H1 H2].
  now rewrite H1, H2.
Qed.

(** X6.  After any history, [markTouched(false)] leaves the status not
    edited, and touched exactly when it has focus: a status without focus
    is back to the default flags. *)
Theorem markTouched_false_resets (fd : Feed) (evs : list Event) :
  _flags (markTouched (Some false) (run (create fd) evs))
  = {| hasFocus := hasFocus (_flags (run (create fd) evs));
       touched := hasFocus (_flags (run (create fd) evs));
       edited := false |}.
Proof.
  pose proof (run_consistent (create fd) evs (create_consistent fd)) as H.
  apply andb_true_iff in H as [H _].
  unfold markTouched. cbn [orTrue negb].
  destruct (_flags (run (create fd) evs)) as [h t e] eqn:E.
  destruct h, t, e; cbn; rewrite ?E; try reflexivity; discriminate.
Qed.

(** X7.  The stream of an element's status keeps the latest event of the
    element's input.  When that input was made by the user, resetting the
    status by [markEdited(false)] or [markTouched(false)] holds only until
    the focus aspect sends its next value: the status is then edited and
    touched again, although nothing was typed in between.  After an input
    not made by the user the reset of [edited] holds.  (The flags of a
    status are always consistent: [edited] and [hasFocus] imply
    [touched].) *)
Theorem reset_lasts_until_focus_moves (s : InControlStatus) (focus h : bool) :
  feed s = ElementFeed focus true -> consistent (_flags s) = true ->
  edited (_flags (markEdited (Some false) s)) = false
  /\ edited (_flags (markTouched (Some false) s)) = false
  /\ edited (_flags (handle (markEdited (Some false) s) (FocusSent h))) = true
  /\ edited (_flags (handle (markTouched (Some false) s) (FocusSent h))) = true
  /\ touched (_flags (handle (markTouched (Some false) s) (FocusSent h))) = true
  /\ edited (_flags (handle (handle (markEdited (Some false) s) (InputSent false))
                            (FocusSent h))) = false.
Proof.
  intros Hfeed Hs. destruct s as [[fh ft fe] fd snt]. cbn in Hfeed, Hs. subst fd.
  destruct fh, ft, fe; try discriminate; destruct h, focus; cbn; repeat split; reflexivity.
Qed.

(** A focused element the user typed into. *)
Lemma reset_lasts_until_focus_moves_witness :
  edited (_flags (handle (markEdited (Some false)
                            (run (create (ElementFeed true false)) [InputSent true]))
                         (FocusSent false))) = true.
Proof.
  exact (proj1 (proj2 (proj2 (reset_lasts_until_focus_moves
           (run (create (ElementFeed true false)) [InputSent true]) true false
           eq_refl eq_refl)))).
Defined.

End StatusLaws.

(** ** Converted controls: bounds, traces and what a failure leaves *)

Module ConvertedLaws.
Import Converted ConvertedFacts.

Lemma strict_eq_number (v : value) (n : Z) :
  strict_eq v (VNum n) = true -> v = VNum n.
Proof.
  destruct v; try discriminate. cbn. intros H. apply Z.eqb_eq in H. now subst.
Qed.

Section Conversion.

Variable set : value -> completion.
Variable get : value -> completion.

Lemma itStored_effects (p : value * Z) (w : World) :
  effects (itStored p w)
  = (match _it_done w with
     | Some _ => []
     | None =>
         if strict_ne (fst p) (fst (_it w))
         then [OnSent (fst p) (fst (_it w))]
         else []
     end) ++ ItAssigned (fst p) (snd p) :: effects w.
Proof.
  unfold itStored, sendChange. cbn [_it_done note store_it].
  destruct (_it_done w); [reflexivity|].
  now destruct (strict_ne (fst p) (fst (_it w))).
Qed.

(** What an assignment to the source adds to the effects. *)
Lemma sourceWritten_adds (v : value) (w : World) :
  exists new,
    effects (fst (sourceWritten set v w)) = new ++ effects w
    /\ length (setCalls new) <= 1
    /\ getCalls new = []
    /\ sourceAssignments new = []
    /\ length (itAssignments new) <= 1
    /\ (_it_done w <> None -> changeEvents new = []).
Proof.
  unfold sourceWritten, sourceTracker.
  destruct (strict_ne (src_it w) v).
  2:{ exists []. cbn. repeat split; lia. }
  cbn [src_done note store_src_it].
  destruct (src_done w).
  { exists [SourceSent v (src_it w)]. cbn. repeat split; lia. }
  unfold forwardOnce, forward. cbn [backward note store_src_it].
  destruct (strict_ne v (backward w)).
  2:{ exists [SourceSent v (src_it w)]. cbn. repeat split; lia. }
  destruct (set v) as [converted|e]; cbn [fst].
  2:{ exists [SetCalled v; SourceSent v (src_it w)]. cbn. repeat split; lia. }
  rewrite itStored_effects.
  cbn [_it_done _it effects note store_src_it set_lastRev fst snd].
  destruct (_it_done w).
  - exists [ItAssigned converted (lastRev w + 1); SetCalled v; SourceSent v (src_it w)].
    cbn. repeat split; lia.
  - destruct (strict_ne converted (fst (_it w))).
    + exists [OnSent converted (fst (_it w)); ItAssigned converted (lastRev w + 1);
              SetCalled v; SourceSent v (src_it w)].
      cbn. repeat split; try lia. intros H. now contradiction H.
    + exists [ItAssigned converted (lastRev w + 1); SetCalled v; SourceSent v (src_it w)].
      cbn. repeat split; lia.
Qed.

Lemma calls_app (new old : list Effect) :
  setCalls (new ++ old) = setCalls new ++ setCalls old
  /\ getCalls (new ++ old) = getCalls new ++ getCalls old
  /\ sourceAssignments (new ++ old) = sourceAssignments new ++ sourceAssignments old
  /\ itAssignments (new ++ old) = itAssignments new ++ itAssignments old.
Proof.
  unfold setCalls, getCalls, sourceAssignments, itAssignments.
  now rewrite !flat_map_app.
Qed.

(** What an assignment to [_it] adds to the effects. *)
Lemma itWritten_adds (p : value * Z) (w : World) :
  exists new,
    effects (fst (itWritten set get p w)) = new ++ effects w
    /\ length (setCalls new) <= 1
    /\ length (getCalls new) <= 1
    /\ length (sourceAssignments new) <= 1
    /\ length (itAssignments new) <= 2.
Proof.
  unfold itWritten, itTracker. cbn [_it_done note store_it].
  destruct (_it_done w).
  { exists [ItAssigned (fst p) (snd p)]. cbn. repeat split; lia. }
  set (w1 := sendChange _ _ _).
  assert (H1 : exists sent,
             effects w1 = sent ++ effects w
             /\ setCalls sent = [] /\ getCalls sent = []
             /\ sourceAssignments sent = [] /\ length (itAssignments sent) = 1).
  { subst w1. unfold sendChange.
    destruct (strict_ne (fst p) (fst (_it w))).
    - exists [OnSent (fst p) (fst (_it w)); ItAssigned (fst p) (snd p)].
      now repeat split.
    - exists [ItAssigned (fst p) (snd p)]. now repeat split. }
  destruct H1 as (sent & E1 & S1 & G1 & A1 & I1).
  unfold restore. destruct (negb _).
  2:{ exists sent. cbn [fst]. rewrite S1, G1, A1, I1. cbn. repeat split; auto; lia. }
  unfold setCalls, getCalls, sourceAssignments, itAssignments in S1, G1, A1, I1.
  destruct (get (fst p)) as [restored|e]; cbn [fst].
  2:{ exists (GetCalled (fst p) :: sent). cbn [effects note set_lastRev].
      rewrite E1. split; [reflexivity|].
      unfold setCalls, getCalls, sourceAssignments, itAssignments.
      cbn [flat_map app]. rewrite S1, G1, A1, I1. cbn. repeat split; lia. }
  cbn [backward set_backward].
  set (w2 := note (SourceAssigned restored) _).
  destruct (sourceWritten_adds restored w2) as (new & E2 & S2 & G2 & A2 & I2 & _).
  destruct (sourceWritten set restored w2) as [w3 outcome]. cbn [fst] in *.
  exists (new ++ SourceAssigned restored :: GetCalled (fst p) :: sent).
  split.
  { cbn [effects set_backward]. rewrite E2. subst w2.
    cbn [effects note set_backward set_lastRev]. rewrite E1.
    now rewrite <- app_assoc. }
  destruct (calls_app new (SourceAssigned restored :: GetCalled (fst p) :: sent))
    as (C1 & C2 & C3 & C4).
  rewrite C1, C2, C3, C4, G2, A2, !length_app.
  unfold setCalls, getCalls, sourceAssignments, itAssignments in *.
  cbn [flat_map app]. rewrite S1, G1, A1, I1. cbn. repeat split; lia.
Qed.

(** X8.  Whatever the two conversions do (they need not be inverse to
    each other), whatever state the two controls are in, and whatever is
    written to either of them, the write comes to an end after at most one
    call of [set], one call of [get], one assignment of the converted
    control to its source and two assignments of [_it]; a write to the
    source never calls [get] and is never written back to the source.  No
    change goes back and forth between the two controls. *)
Theorem propagation_is_bounded (w : World) (a : Action) (v : value) :
  length (setCalls (effectsOf set get w a)) <= 1
  /\ length (getCalls (effectsOf set get w a)) <= 1
  /\ length (sourceAssignments (effectsOf set get w a)) <= 1
  /\ length (itAssignments (effectsOf set get w a)) <= 2
  /\ getCalls (effectsOf set get w (WriteSource v)) = []
  /\ sourceAssignments (effectsOf set get w (WriteSource v)) = []
  /\ length (itAssignments (effectsOf set get w (WriteSource v))) <= 1.
Proof.
  assert (Hsrc : forall u,
            length (setCalls (effectsOf set get w (WriteSource u))) <= 1
            /\ getCalls (effectsOf set get w (WriteSource u)) = []
            /\ sourceAssignments (effectsOf set get w (WriteSource u)) = []
            /\ length (itAssignments (effectsOf set get w (WriteSource u))) <= 1).
  { intros u. unfold effectsOf, perform, depth. rewrite sourceAssign_written.
    destruct (sourceWritten_adds u (wiped w)) as (new & E & S1 & G1 & A1 & I1 & _).
    rewrite E. cbn [effects wiped]. rewrite app_nil_r. auto. }
  destruct (Hsrc v) as (_ & G & A & I).
  split; [|split; [|split; [|split; [|auto]]]];
    destruct a as [u|u|reason|reason];
    try (destruct (Hsrc u) as (S1 & G1 & A1 & I1); rewrite ?G1, ?A1; cbn; lia);
    try (unfold effectsOf, perform, sourceDone, convertedDone; cbn;
         destruct (src_done w), (_it_done w), (on_done w); cbn; lia);
    unfold effectsOf, perform, convertedAssign; cbn [_it wiped];
    destruct (_it w) as [prevValue prevRev];
    (destruct (strict_ne u prevValue); [|cbn; lia]);
    unfold depth; rewrite itAssign_written;
    match goal with
    | |- context [itWritten set get ?p ?w'] =>
        destruct (itWritten_adds p w') as (new & E & S1 & G1 & A1 & I1)
    end;
    rewrite E; cbn [effects]; rewrite app_nil_r; assumption.
Qed.

(** X9.  After any history, with both controls live, a write of a new
    value (other than [undefined]) to the source does exactly this, in
    this order: the source stores the value and tells its own receivers;
    [set] is called on it; [_it] is assigned the converted value under the
    next revision; and the converted control sends a change event, unless
    the converted value is [===] the one it held (a lossy [set]), in which
    case it sends none. *)
Theorem source_write_trace (source : value) (w0 : World)
    (actions : list Action) (v converted : value) :
  convert set source = Some w0 ->
  let w := performAll set get w0 actions in
  src_done w = None -> _it_done w = None ->
  strict_ne (src_it w) v = true -> strict_ne v VUndefined = true ->
  set v = Returns converted ->
  effectsOf set get w (WriteSource v)
  = (if strict_ne converted (convertedIt w)
     then [OnSent converted (convertedIt w)]
     else [])
    ++ [ItAssigned converted (snd (_it w) + 1); SetCalled v; SourceSent v (src_it w)].
Proof.
  intros Hinit w Hsrc Hit Hnew Hdef Hset.
  assert (Hw : Settled w)
    by (apply performAll_settled; now apply (convert_settled set source)).
  unfold effectsOf, perform, depth. rewrite sourceAssign_written.
  rewrite (source_write_result set (wiped w) v converted
             (slot_empty Hw) Hsrc Hnew Hdef Hset).
  cbn [fst]. rewrite itStored_effects.
  cbn [_it_done _it effects lastRev note store_src_it set_lastRev wiped fst snd].
  rewrite Hit, (revision_known Hw Hit). reflexivity.
Qed.

(** X10.  After any history, with the converted control live, a write of
    a new value to it does exactly this, in this order: [_it] is assigned
    the value under the next revision; the change event is sent; only then
    [get] is called and the restored value assigned to the source, which
    stores it and tells its receivers if it is new to it.  [set] is not
    called.  (The restored value is supposed to be [===] itself, which
    [NaN] is not.) *)
Theorem converted_write_trace (source : value) (w0 : World)
    (actions : list Action) (v restored : value) :
  convert set source = Some w0 ->
  let w := performAll set get w0 actions in
  _it_done w = None -> strict_ne v (convertedIt w) = true ->
  get v = Returns restored -> strict_eq restored restored = true ->
  effectsOf set get w (WriteConverted v)
  = (if strict_ne (src_it w) restored
     then [SourceSent restored (src_it w)]
     else [])
    ++ [SourceAssigned restored; GetCalled v; OnSent v (convertedIt w);
        ItAssigned v (snd (_it w) + 1)].
Proof.
  intros Hinit w Hit Hnew Hget Hself.
  assert (Hw : Settled w)
    by (apply performAll_settled; now apply (convert_settled set source)).
  pose proof (revision_known Hw Hit) as Hrev.
  unfold effectsOf, perform, convertedAssign, convertedIt in *. cbn [_it wiped].
  destruct (_it w) as [prevValue prevRev] eqn:Hitv. cbn [fst snd] in *.
  rewrite Hnew. unfold depth. rewrite itAssign_written.
  assert (Hne : (prevRev + 1)%Z <> lastRev w) by lia.
  rewrite (converted_write_result set get (wiped w) v restored _ Hne Hit Hget Hself).
  cbv zeta. cbn [fst snd wiped src_it _it effects]. rewrite Hitv. cbn [fst].
  unfold sendChange. rewrite Hnew.
  now destruct (strict_ne (src_it w) restored).
Qed.

Lemma write_keeps_ends (w : World) (a : Action) :
  numberWrite a = true ->
  src_done (fst (perform set get w a)) = src_done w
  /\ _it_done (fst (perform set get w a)) = _it_done w.
Proof.
  destruct a as [v|v|r|r]; try discriminate; intros _; cbn [perform].
  - unfold depth. rewrite sourceAssign_written.
    destruct (sourceWritten_forwarded set v w) as [(S1 & _ & _) _].
    split; [apply (same_src_done S1)|apply (same_it_done S1)].
  - unfold convertedAssign. destruct (_it w) as [prevValue prevRev].
    destruct (strict_ne v prevValue); [|now split].
    unfold depth. rewrite itAssign_written.
    destruct (itWritten_settles set get (v, (prevRev + 1)%Z) w) as (S1 & _).
    split; [apply (same_src_done S1)|apply (same_it_done S1)].
Qed.

Lemma number_write_in_step (f g : Z -> Z) (w : World) (a : Action) :
  (forall n, set (VNum n) = Returns (VNum (f n))) ->
  (forall m, get (VNum m) = Returns (VNum (g m))) ->
  (forall m, f (g m) = m) ->
  numberWrite a = true ->
  Settled w -> src_done w = None -> _it_done w = None ->
  (exists n, src_it w = VNum n /\ convertedIt w = VNum (f n)) ->
  exists n, src_it (fst (perform set get w a)) = VNum n
            /\ convertedIt (fst (perform set get w a)) = VNum (f n).
Proof.
  intros Hset Hget Hfg Ha Hw Hsrc Hit (n & Hn & Hc).
  destruct a as [v|v|r|r]; try discriminate; destruct v as [| | |u| | |];
    try discriminate.
  - destruct (strict_ne (src_it w) (VNum u)) eqn:Hnew.
    + destruct (source_write_crosses_once set get w (VNum u) (VNum (f u))
                  (slot_empty Hw) Hsrc Hnew eq_refl (Hset u)) as (_ & H2 & H3 & _).
      exists u. unfold convertedIt. now rewrite H2, H3.
    + exists n. cbn [perform]. unfold depth. rewrite sourceAssign_written.
      unfold sourceWritten, sourceTracker. rewrite Hnew. now split.
  - destruct (strict_ne (VNum u) (convertedIt w)) eqn:Hnew.
    + destruct (converted_write_crosses_once set get w (VNum u) (VNum (g u))
                  (slot_empty Hw) (revision_known Hw Hit) Hit Hnew (Hget u)
                  (Z.eqb_refl (g u))) as (_ & H2 & H3 & _).
      exists (g u). split; [now apply strict_eq_number|].
      now rewrite H2, Hfg.
    + exists n. cbn [perform]. unfold convertedAssign, convertedIt in *.
      destruct (_it w) as [prevValue prevRev] eqn:E. cbn [fst] in Hnew, Hc.
      rewrite Hnew. cbn [fst]. rewrite E. now split.
Qed.

(** X11.  Let the source and the converted control hold numbers, [set]
    and [get] map numbers to numbers, and [get] be a right inverse of
    [set].  Then after any sequence of writes of numbers to either
    control, the converted control reads [set] of what the source
    reads: the two never drift apart, whichever side was written last. *)
Theorem inverse_conversions_keep_in_step (f g : Z -> Z) (n0 : Z) (w0 : World)
    (actions : list Action) :
  (forall n, set (VNum n) = Returns (VNum (f n))) ->
  (forall m, get (VNum m) = Returns (VNum (g m))) ->
  (forall m, f (g m) = m) ->
  convert set (VNum n0) = Some w0 ->
  forallb numberWrite actions = true ->
  exists n, src_it (performAll set get w0 actions) = VNum n
            /\ convertedIt (performAll set get w0 actions) = VNum (f n).
Proof.
  intros Hset Hget Hfg Hinit Hactions.
  assert (Hw0 : Settled w0) by now apply (convert_settled set (VNum n0)).
  assert (H0 : src_done w0 = None /\ _it_done w0 = None
               /\ exists n, src_it w0 = VNum n /\ convertedIt w0 = VNum (f n)).
  { unfold convert in Hinit. rewrite Hset in Hinit. injection Hinit as <-.
    split; [reflexivity|]. split; [reflexivity|]. now exists n0. }
  clear Hinit. revert w0 Hw0 H0.
  induction actions as [|a actions IH]; intros w Hw (Hsrc & Hit & Hn); [exact Hn|].
  cbn in Hactions. apply andb_true_iff in Hactions as [Ha Hactions].
  cbn [performAll fold_left]. apply (IH Hactions).
  - now apply perform_settled.
  - destruct (write_keeps_ends w a Ha) as [E1 E2]. rewrite E1, E2.
    split; [exact Hsrc|]. split; [exact Hit|].
    now apply number_write_in_step with g.
Qed.

(** X12.  Once the converted control is done, a write to it is still
    stored, but goes nowhere: [get] is not called, the source is neither
    assigned nor changed, and no change event is sent.  A write to the
    source sends no change event of the converted control either. *)
Theorem closed_converted_is_cut_off (w : World) (reason v u : value) :
  _it_done w = Some reason ->
  snd (perform set get w (WriteConverted v)) = Completed
  /\ src_it (fst (perform set get w (WriteConverted v))) = src_it w
  /\ convertedIt (fst (perform set get w (WriteConverted v)))
     = (if strict_ne v (convertedIt w) then v else convertedIt w)
  /\ effectsOf set get w (WriteConverted v)
     = (if strict_ne v (convertedIt w)
        then [ItAssigned v (snd (_it w) + 1)]
        else [])
  /\ changeEvents (effectsOf set get w (WriteSource u)) = [].
Proof.
  intros Hdone.
  assert (Hsrc : changeEvents (effectsOf set get w (WriteSource u)) = []).
  { unfold effectsOf, perform, depth. rewrite sourceAssign_written.
    destruct (sourceWritten_adds u (wiped w)) as (new & E & _ & _ & _ & _ & C).
    rewrite E. cbn [effects wiped]. rewrite app_nil_r. apply C.
    cbn. now rewrite Hdone. }
  unfold effectsOf, perform, convertedAssign, convertedIt in *. cbn [_it wiped].
  destruct (_it w) as [prevValue prevRev] eqn:Hitv. cbn [fst snd].
  destruct (strict_ne v prevValue).
  2:{ cbn [fst snd]. rewrite Hitv. now repeat split. }
  unfold depth. rewrite !itAssign_written.
  unfold itWritten, itTracker. cbn [_it_done note store_it wiped]. rewrite Hdone.
  now repeat split.
Qed.

(** X13.  At every moment of any history: the change events of the
    converted control have ended exactly if the control is done, with the
    same reason, announced once; a converted control is never live on a
    source that is done; and while it is live, the revision the forward
    conversion counts is the revision [_it] holds.  Once done, the
    converted control stays done with the reason it was first given. *)
Theorem converted_never_outlives_source (source : value) (w0 : World)
    (actions more : list Action) (reason : value) :
  convert set source = Some w0 ->
  let w := performAll set get w0 actions in
  on_done w = _it_done w
  /\ endsAnnounced w = match _it_done w with Some r => [r] | None => [] end
  /\ (_it_done w = None -> src_done w = None)
  /\ (_it_done w = None -> lastRev w = snd (_it w))
  /\ (_it_done w = Some reason ->
      _it_done (performAll set get w more) = Some reason
      /\ endsAnnounced (performAll set get w more) = [reason]).
Proof.
  intros Hinit w.
  assert (Hw : Settled w)
    by (apply performAll_settled; now apply (convert_settled set source)).
  split; [apply (on_ends_with_it Hw)|].
  split; [rewrite <- (on_ends_with_it Hw); apply (end_announced_once Hw)|].
  split; [apply (source_outlives Hw)|].
  split; [apply (revision_known Hw)|].
  intros Hit.
  assert (Hon : on_done w = Some reason) by now rewrite (on_ends_with_it Hw).
  pose proof (performAll_keeps_ends set get w more reason Hw Hon) as Hlater.
  pose proof (performAll_settled set get w more Hw) as Hw'.
  split; [now rewrite <- (on_ends_with_it Hw')|].
  now rewrite (end_announced_once Hw'), Hlater.
Qed.

(** X14.  When [set] throws at a new value written to a live source,
    the source has the value all the same and has told its receivers; the
    converted control keeps the value and the revision it had, so the two
    are out of step.  Writing the same value to the source again does
    nothing: it is not converted until the source is given another value. *)
Theorem failed_set_leaves_converted_behind (source : value) (w0 : World)
    (actions : list Action) (v e : value) :
  convert set source = Some w0 ->
  let w := performAll set get w0 actions in
  src_done w = None -> strict_ne (src_it w) v = true ->
  strict_ne v VUndefined = true -> set v = Throws e ->
  let w' := fst (perform set get w (WriteSource v)) in
  src_it w' = v
  /\ _it w' = _it w
  /\ lastRev w' = lastRev w
  /\ effectsOf set get w (WriteSource v) = [SetCalled v; SourceSent v (src_it w)]
  /\ (strict_eq v v = true -> perform set get w' (WriteSource v) = (w', Completed)).
Proof.
  intros Hinit w Hsrc Hnew Hdef Hset.
  assert (Hw : Settled w)
    by (apply performAll_settled; now apply (convert_settled set source)).
  assert (Hthrow : forall w1, backward w1 = VUndefined -> src_done w1 = None ->
            strict_ne (src_it w1) v = true ->
            perform set get w1 (WriteSource v)
            = (note (SetCalled v) (note (SourceSent v (src_it w1)) (store_src_it v w1)),
               Thrown e)).
  { intros w1 Hslot Hlive Hn. unfold perform, depth. rewrite sourceAssign_written.
    unfold sourceWritten, sourceTracker. rewrite Hn.
    cbn [src_done note store_src_it]. rewrite Hlive.
    unfold forwardOnce, forward. cbn [backward note store_src_it].
    now rewrite Hslot, Hdef, Hset. }
  cbv zeta. unfold effectsOf.
  rewrite (Hthrow w (slot_empty Hw) Hsrc Hnew).
  rewrite (Hthrow (wiped w) (slot_empty Hw) Hsrc Hnew).
  cbn [fst]. repeat split.
  intros Hself. unfold perform, depth. rewrite sourceAssign_written.
  unfold sourceWritten, sourceTracker. cbn [src_it note store_src_it].
  unfold strict_ne. now rewrite Hself.
Qed.

(** X15.  When [get] throws at a new value written to a live converted
    control, the converted control has the value all the same and has
    already sent its change event; the source is neither assigned nor
    changed, so the two are out of step.  Writing the same value to the
    converted control again does nothing. *)
Theorem failed_get_leaves_source_behind (source : value) (w0 : World)
    (actions : list Action) (v e : value) :
  convert set source = Some w0 ->
  let w := performAll set get w0 actions in
  _it_done w = None -> strict_ne v (convertedIt w) = true -> get v = Throws e ->
  let w' := fst (perform set get w (WriteConverted v)) in
  convertedIt w' = v
  /\ src_it w' = src_it w
  /\ lastRev w' = snd (_it w')
  /\ effectsOf set get w (WriteConverted v)
     = [GetCalled v; OnSent v (convertedIt w); ItAssigned v (snd (_it w) + 1)]
  /\ (strict_eq v v = true -> perform set get w' (WriteConverted v) = (w', Completed)).
Proof.
  intros Hinit w Hit Hnew Hget.
  assert (Hw : Settled w)
    by (apply performAll_settled; now apply (convert_settled set source)).
  pose proof (revision_known Hw Hit) as Hrev.
  assert (Hthrow : forall w1, _it w1 = _it w -> lastRev w1 = lastRev w ->
            _it_done w1 = None ->
            perform set get w1 (WriteConverted v)
            = (note (GetCalled v)
                 (set_lastRev (snd (_it w) + 1)
                    (note (OnSent v (convertedIt w))
                       (note (ItAssigned v (snd (_it w) + 1))
                          (store_it (v, (snd (_it w) + 1)%Z) w1)))),
               Thrown e)).
  { intros w1 E1 E2 E3. unfold perform, convertedAssign, convertedIt in *.
    rewrite E1. destruct (_it w) as [prevValue prevRev] eqn:Hitv. cbn [fst snd] in *.
    rewrite Hnew. unfold depth. rewrite itAssign_written.
    unfold itWritten, itTracker. cbn [_it_done note store_it fst snd]. rewrite E3.
    unfold restore. rewrite sendChange_lastRev. cbn [lastRev note store_it fst snd].
    destruct (Z.eqb_spec (prevRev + 1) (lastRev w1)) as [|_]; [lia|]. cbn [negb].
    rewrite Hget, E1. cbn [fst]. unfold sendChange. now rewrite Hnew. }
  cbv zeta. unfold effectsOf.
  rewrite (Hthrow w eq_refl eq_refl Hit).
  rewrite (Hthrow (wiped w) eq_refl eq_refl Hit).
  cbn [fst]. repeat split.
  intros Hself. unfold perform, convertedAssign.
  cbn [_it note set_lastRev store_it]. unfold strict_ne. now rewrite Hself.
Qed.

(** X22.  [NaN] is not [===] itself, so when [get] restores a value
    written to the converted control to [NaN], the forward conversion does
    not recognise the assignment to the source as its own echo: [set] is
    called on [NaN] and its result replaces the value just written.  The
    converted control ends up reading [set(NaN)], two revisions on. *)
Theorem restored_NaN_bounces_back (source : value) (w0 : World)
    (actions : list Action) (v converted : value) :
  convert set source = Some w0 ->
  let w := performAll set get w0 actions in
  _it_done w = None -> strict_ne v (convertedIt w) = true ->
  get v = Returns VNaN -> set VNaN = Returns converted ->
  let w' := fst (perform set get w (WriteConverted v)) in
  snd (perform set get w (WriteConverted v)) = Completed
  /\ src_it w' = VNaN
  /\ _it w' = (converted, (snd (_it w) + 2)%Z)
  /\ lastRev w' = (snd (_it w) + 2)%Z
  /\ setCalls (effectsOf set get w (WriteConverted v)) = [VNaN]
  /\ itAssignments (effectsOf set get w (WriteConverted v)) = [converted; v].
Proof.
  intros Hinit w Hit Hnew Hget Hset.
  assert (Hw : Settled w)
    by (apply performAll_settled; now apply (convert_settled set source)).
  pose proof (revision_known Hw Hit) as Hrev.
  pose proof (source_outlives Hw Hit) as Hsrc.
  assert (Hrun : forall w1, _it w1 = _it w -> lastRev w1 = lastRev w ->
            _it_done w1 = None -> src_done w1 = None ->
            exists w2,
              perform set get w1 (WriteConverted v) = (w2, Completed)
              /\ src_it w2 = VNaN
              /\ _it w2 = (converted, (snd (_it w) + 2)%Z)
              /\ lastRev w2 = (snd (_it w) + 2)%Z
              /\ exists sent sent',
                   effects w2
                   = sent' ++ ItAssigned converted (snd (_it w) + 2)
                       :: SetCalled VNaN :: SourceSent VNaN (src_it w1)
                       :: SourceAssigned VNaN :: GetCalled v
                       :: sent ++ ItAssigned v (snd (_it w) + 1) :: effects w1
                   /\ setCalls sent = [] /\ itAssignments sent = []
                   /\ setCalls sent' = [] /\ itAssignments sent' = []).
  { intros w1 E1 E2 E3 E4. unfold perform, convertedAssign, convertedIt in *.
    rewrite E1. destruct (_it w) as [prevValue prevRev] eqn:Hitv. cbn [fst snd] in *.
    rewrite Hnew. unfold depth. rewrite itAssign_written.
    unfold itWritten, itTracker. cbn [_it_done note store_it fst snd]. rewrite E3.
    unfold restore. rewrite sendChange_lastRev. cbn [lastRev note store_it fst snd].
    destruct (Z.eqb_spec (prevRev + 1) (lastRev w1)) as [|_]; [lia|]. cbn [negb].
    rewrite Hget, E1. cbn [fst backward set_backward].
    unfold sendChange at 1. rewrite Hnew.
    unfold sourceWritten, sourceTracker.
    cbn [src_it src_done note set_backward set_lastRev store_it store_src_it].
    change (strict_ne (src_it w1) VNaN) with (negb (strict_eq (src_it w1) VNaN)).
    assert (Hnan : strict_eq (src_it w1) VNaN = false) by now destruct (src_it w1).
    rewrite Hnan, E4. cbn [negb].
    unfold forwardOnce, forward.
    cbn [backward lastRev note set_backward set_lastRev store_it store_src_it].
    change (strict_ne VNaN VNaN) with true. cbn iota. rewrite Hset.
    unfold itStored.
    cbn [_it _it_done lastRev note set_backward set_lastRev store_it store_src_it fst snd].
    rewrite E3. cbn [fst snd].
    replace (prevRev + 1 + 1)%Z with (prevRev + 2)%Z by lia.
    unfold sendChange.
    eexists. split; [reflexivity|].
    destruct (strict_ne converted v); cbn [src_it _it lastRev effects note set_backward
      set_lastRev store_it store_src_it].
    - split; [reflexivity|]. split; [reflexivity|]. split; [reflexivity|].
      exists [OnSent v prevValue], [OnSent converted v]. now repeat split.
    - split; [reflexivity|]. split; [reflexivity|]. split; [reflexivity|].
      exists [OnSent v prevValue], []. now repeat split. }
  cbv zeta. unfold effectsOf.
  destruct (Hrun w eq_refl eq_refl Hit Hsrc) as (w2 & -> & H2 & H3 & H4 & _).
  destruct (Hrun (wiped w) eq_refl eq_refl Hit Hsrc)
    as (w3 & -> & _ & _ & _ & sent & sent' & E & S1 & I1 & S2 & I2).
  cbn [fst snd]. rewrite E. cbn [effects wiped src_it].
  do 4 (split; [assumption || reflexivity|]).
  unfold setCalls, itAssignments in *.
  rewrite !flat_map_app. cbn [flat_map app]. rewrite !flat_map_app.
  rewrite S1, I1, S2, I2. now split.
Qed.

End Conversion.

(** The number conversions of the example send whatever is no number to
    [NaN]: the string ["x"] written to the converted control. *)
Lemma restored_NaN_bounces_back_witness :
  let w0 := {| src_it := VNum 1; src_done := None; _it := (VNum 2, 0%Z);
               _it_done := None; on_done := None; lastRev := 0%Z;
               backward := VUndefined; effects := [] |} in
  let w' := fst (perform plusOne minusOne w0 (WriteConverted (VStr "x"))) in
  snd (perform plusOne minusOne w0 (WriteConverted (VStr "x"))) = Completed
  /\ src_it w' = VNaN
  /\ _it w' = (VNaN, 2%Z)
  /\ lastRev w' = 2%Z
  /\ setCalls (effectsOf plusOne minusOne w0 (WriteConverted (VStr "x"))) = [VNaN]
  /\ itAssignments (effectsOf plusOne minusOne w0 (WriteConverted (VStr "x")))
     = [VNaN; VStr "x"].
Proof.
  exact (restored_NaN_bounces_back plusOne minusOne (VNum 1) _ [] (VStr "x") VNaN
           eq_refl eq_refl eq_refl eq_refl eq_refl).
Defined.

(** The source of the specification's example, holding [1] and
    converted by [x => x + 1] and [y => y - 1]; [5] is written to it. *)
Lemma source_write_trace_witness :
  let w0 := {| src_it := VNum 1; src_done := None; _it := (VNum 2, 0%Z);
               _it_done := None; on_done := None; lastRev := 0%Z;
               backward := VUndefined; effects := [] |} in
  effectsOf plusOne minusOne w0 (WriteSource (VNum 5))
  = [OnSent (VNum 6) (VNum 2); ItAssigned (VNum 6) 1; SetCalled (VNum 5);
     SourceSent (VNum 5) (VNum 1)].
Proof.
  exact (source_write_trace plusOne minusOne (VNum 1) _ [] (VNum 5) (VNum 6)
           eq_refl eq_refl eq_refl eq_refl eq_refl eq_refl).
Defined.

(** The same two controls; [9] is written to the converted one. *)
Lemma converted_write_trace_witness :
  let w0 := {| src_it := VNum 1; src_done := None; _it := (VNum 2, 0%Z);
               _it_done := None; on_done := None; lastRev := 0%Z;
               backward := VUndefined; effects := [] |} in
  effectsOf plusOne minusOne w0 (WriteConverted (VNum 9))
  = [SourceSent (VNum 8) (VNum 1); SourceAssigned (VNum 8); GetCalled (VNum 9);
     OnSent (VNum 9) (VNum 2); ItAssigned (VNum 9) 1].
Proof.
  exact (converted_write_trace plusOne minusOne (VNum 1) _ [] (VNum 9) (VNum 8)
           eq_refl eq_refl eq_refl eq_refl eq_refl).
Defined.

(** The same two controls, written on both sides in turn. *)
Lemma inverse_conversions_keep_in_step_witness :
  let w0 := {| src_it := VNum 1; src_done := None; _it := (VNum 2, 0%Z);
               _it_done := None; on_done := None; lastRev := 0%Z;
               backward := VUndefined; effects := [] |} in
  exists n,
    src_it (performAll plusOne minusOne w0
              [WriteSource (VNum 5); WriteConverted (VNum 9); WriteConverted (VNum 9);
               WriteSource (VNum 8)])
    = VNum n
    /\ convertedIt (performAll plusOne minusOne w0
                      [WriteSource (VNum 5); WriteConverted (VNum 9);
                       WriteConverted (VNum 9); WriteSource (VNum 8)])
       = VNum (n + 1).
Proof.
  exact (inverse_conversions_keep_in_step plusOne minusOne
           (fun n => (n + 1)%Z) (fun m => (m - 1)%Z) 1 _
           [WriteSource (VNum 5); WriteConverted (VNum 9); WriteConverted (VNum 9);
            WriteSource (VNum 8)]
           (fun n => eq_refl) (fun m => eq_refl) (fun m => Z.sub_add 1 m)
           eq_refl eq_refl).
Defined.

(** The converted control of the example, done with ["over"]; [9] is
    written to it and [5] to its source. *)
Lemma closed_converted_is_cut_off_witness :
  let w := {| src_it := VNum 1; src_done := None; _it := (VNum 2, 0%Z);
              _it_done := Some (VStr "over"); on_done := Some (VStr "over");
              lastRev := 0%Z; backward := VUndefined;
              effects := [OnDone (VStr "over")] |} in
  snd (perform plusOne minusOne w (WriteConverted (VNum 9))) = Completed
  /\ src_it (fst (perform plusOne minusOne w (WriteConverted (VNum 9)))) = VNum 1
  /\ convertedIt (fst (perform plusOne minusOne w (WriteConverted (VNum 9)))) = VNum 9
  /\ effectsOf plusOne minusOne w (WriteConverted (VNum 9)) = [ItAssigned (VNum 9) 1]
  /\ changeEvents (effectsOf plusOne minusOne w (WriteSource (VNum 5))) = [].
Proof.
  exact (closed_converted_is_cut_off plusOne minusOne
           {| src_it := VNum 1; src_done := None; _it := (VNum 2, 0%Z);
              _it_done := Some (VStr "over"); on_done := Some (VStr "over");
              lastRev := 0%Z; backward := VUndefined;
              effects := [OnDone (VStr "over")] |}
           (VStr "over") (VNum 9) (VNum 5) eq_refl).
Defined.

(** The two controls of the example after a write; the converted one is
    then done with ["over"], and the source with ["gone"] later. *)
Lemma converted_never_outlives_source_witness :
  let w0 := {| src_it := VNum 1; src_done := None; _it := (VNum 2, 0%Z);
               _it_done := None; on_done := None; lastRev := 0%Z;
               backward := VUndefined; effects := [] |} in
  let w := performAll plusOne minusOne w0
             [WriteSource (VNum 5); CloseConverted (VStr "over")] in
  _it_done (performAll plusOne minusOne w [WriteSource (VNum 7); CloseSource (VStr "gone")])
  = Some (VStr "over")
  /\ endsAnnounced
       (performAll plusOne minusOne w [WriteSource (VNum 7); CloseSource (VStr "gone")])
     = [VStr "over"].
Proof.
  exact (proj2 (proj2 (proj2 (proj2
           (converted_never_outlives_source plusOne minusOne (VNum 1) _
              [WriteSource (VNum 5); CloseConverted (VStr "over")]
              [WriteSource (VNum 7); CloseSource (VStr "gone")] (VStr "over")
              eq_refl)))) eq_refl).
Defined.

(** The checked conversions: [-5] written to the source makes [set]
    throw. *)
Lemma failed_set_leaves_converted_behind_witness :
  let w0 := {| src_it := VNum 1; src_done := None; _it := (VNum 2, 0%Z);
               _it_done := None; on_done := None; lastRev := 0%Z;
               backward := VUndefined; effects := [] |} in
  let w' := fst (perform plusOneChecked minusOneChecked w0 (WriteSource (VNum (-5)))) in
  src_it w' = VNum (-5)
  /\ _it w' = (VNum 2, 0%Z)
  /\ lastRev w' = 0%Z
  /\ effectsOf plusOneChecked minusOneChecked w0 (WriteSource (VNum (-5)))
     = [SetCalled (VNum (-5)); SourceSent (VNum (-5)) (VNum 1)]
  /\ (strict_eq (VNum (-5)) (VNum (-5)) = true ->
      perform plusOneChecked minusOneChecked w' (WriteSource (VNum (-5)))
      = (w', Completed)).
Proof.
  exact (failed_set_leaves_converted_behind plusOneChecked minusOneChecked (VNum 1) _ []
           (VNum (-5)) (VStr "negative") eq_refl eq_refl eq_refl eq_refl eq_refl).
Defined.

(** The checked conversions: [-3] written to the converted control
    makes [get] throw. *)
Lemma failed_get_leaves_source_behind_witness :
  let w0 := {| src_it := VNum 1; src_done := None; _it := (VNum 2, 0%Z);
               _it_done := None; on_done := None; lastRev := 0%Z;
               backward := VUndefined; effects := [] |} in
  let w' := fst (perform plusOneChecked minusOneChecked w0 (WriteConverted (VNum (-3)))) in
  convertedIt w' = VNum (-3)
  /\ src_it w' = VNum 1
  /\ lastRev w' = snd (_it w')
  /\ effectsOf plusOneChecked minusOneChecked w0 (WriteConverted (VNum (-3)))
     = [GetCalled (VNum (-3)); OnSent (VNum (-3)) (VNum 2); ItAssigned (VNum (-3)) 1]
  /\ (strict_eq (VNum (-3)) (VNum (-3)) = true ->
      perform plusOneChecked minusOneChecked w' (WriteConverted (VNum (-3)))
      = (w', Completed)).
Proof.
  exact (failed_get_leaves_source_behind plusOneChecked minusOneChecked (VNum 1) _ []
           (VNum (-3)) (VStr "negative") eq_refl eq_refl eq_refl eq_refl).
Defined.

End ConvertedLaws.

(** ** Aspects of converted and plain controls *)

Module AspectLaws.
Import Aspects AspectFacts.

Section Controls.

Variable applyTo : nat -> nat -> Prog Applied.
Variable convertTo : Applied -> nat -> Prog (option Applied).
Variable converted : nat -> option (nat * option (nat -> Prog (option Applied))).

Local Abbreviation exec n p w := (Aspects.exec applyTo convertTo converted n p w).
Local Abbreviation _aspect := (Aspects._aspect applyTo convertTo converted).
Local Abbreviation _applyAspect := (Aspects._applyAspect convertTo converted).

(** Running [p] and then [f] on what it returned is running [bind p f]. *)
Lemma exec_bind (n m : nat) (A B : Type) (p : Prog A) (f : A -> Prog B)
    (w w1 w2 : World) (a : A) (b : B) :
  exec n p w = Some (a, w1) -> exec m (f a) w1 = Some (b, w2) ->
  exec (n + m) (bind p f) w = Some (b, w2).
Proof.
  revert p w. induction n as [|n IH]; intros p w Hp Hf; [discriminate|].
  rewrite exec_S in Hp. destruct p as [r|c k next|next]; cbn [bind].
  - injection Hp as -> ->.
    apply (exec_more_steps applyTo convertTo converted m (S n + m) _ _ _ _ _
             ltac:(lia) Hf).
  - destruct (_aspect n c k w) as [[a1 w0]|] eqn:Ha; [|discriminate].
    change (S n + m) with (S (n + m)). rewrite exec_S.
    rewrite (_aspect_more_steps applyTo convertTo converted n (n + m) _ _ _ _ _
               ltac:(lia) Ha).
    now apply IH.
  - change (S n + m) with (S (n + m)). rewrite exec_S. now apply IH.
Qed.

(** What a lookup on a converted control leaves in the [_aspects] map
    of its source, once it has returned. *)
Lemma converted_lookup_caches_source (n this src k : nat) (w w' : World)
    (a : Applied) :
  converted this = Some (src, None) ->
  _aspects w !! (this, k) = None ->
  _aspect n this k w = Some (a, w') ->
  is_Some (_aspects w' !! (src, k)).
Proof.
  intros Hconv Hmiss.
  assert (Hcached : forall a1 a2 w2,
            _aspects w2 !! (src, k) = Some a1 ->
            is_Some (_aspects (cache this k a2 w2) !! (src, k))).
  { intros a1 a2 w2 H2. cbn.
    destruct (decide ((this, k) = (src, k))) as [->|Hne].
    - rewrite lookup_insert_eq. eauto.
    - rewrite lookup_insert_ne; eauto. }
  destruct n as [|n]; [discriminate|]. rewrite _aspect_S, Hmiss.
  unfold Aspects._applyAspect, convertAspect. rewrite Hconv.
  destruct n as [|n]; [discriminate|]. rewrite exec_S.
  destruct (_aspect n src k w) as [[a1 w1]|] eqn:Ha; [|discriminate].
  pose proof (lookup_caches applyTo convertTo converted n src k w w1 a1 Ha) as Hc1.
  destruct (exec n (convertTo a1 this) w1) as [[[a2|] w2]|] eqn:He;
    [| |discriminate].
  - intros [= <- <-].
    destruct (proj1 (kept_both applyTo convertTo converted n (src, k) a1)
                _ _ _ _ _ Hc1 He) as [Hc2 _].
    now apply Hcached with a1.
  - destruct (exec (S n) (applyTo k this) (noteApplyTo this k w2))
      as [[a3 w3]|] eqn:He3; [|discriminate].
    intros [= <- <-].
    destruct (proj1 (kept_both applyTo convertTo converted n (src, k) a1)
                _ _ _ _ _ Hc1 He) as [Hc2 _].
    assert (Hc2' : _aspects (noteApplyTo this k w2) !! (src, k) = Some a1)
      by exact Hc2.
    destruct (proj1 (kept_both applyTo convertTo converted (S n) (src, k) a1)
                _ _ _ _ _ Hc2' He3) as [Hc3 _].
    now apply Hcached with a1.
Qed.

(** X16.  Take a converted control, constructed already, whose converter
    has no [applyAspect], and an aspect not applied to it yet; no aspect
    needs itself to be applied.  Looking the aspect up on the converted
    control returns (given enough steps, and then whatever the number of
    steps) and applies the aspect to the source control as well: after
    the lookup the aspect is in the [_aspects] map of the source, whether
    [convertTo] then converted it or declined. *)
Theorem converted_lookup_reaches_source (rank : nat * nat -> nat)
    (this src k : nat) (w : World) :
  (forall control k, below rank (rank (control, k)) (applyTo k control)) ->
  (forall control k, below rank (rank (control, k)) (_applyAspect control k)) ->
  converted this = Some (src, None) ->
  _aspects w !! (this, k) = None ->
  exists n a w',
    (forall m, n <= m -> _aspect m this k w = Some (a, w'))
    /\ _aspects w' !! (this, k) = Some a
    /\ is_Some (_aspects w' !! (src, k)).
Proof.
  intros HapplyTo H_applyAspect Hconv Hmiss.
  destruct (ranked_lookup_returns applyTo convertTo converted rank
              HapplyTo H_applyAspect (S (rank (this, k))) this k w
              (Nat.lt_succ_diag_r _)) as (n & a & w' & Ha).
  exists n, a, w'.
  split; [intros m Hm;
          exact (_aspect_more_steps applyTo convertTo converted n m this k w w' a Hm Ha)|].
  split; [exact (lookup_caches applyTo convertTo converted n this k w w' a Ha)|].
  exact (converted_lookup_caches_source n this src k w w' a Hconv Hmiss Ha).
Qed.

(** X17.  On a converted control whose converter has no [applyAspect],
    an aspect not applied yet is what [convertTo] of the source's applied
    aspect returns, when it returns one: the source's aspect is looked up
    first, its [convertTo] is called with the converted control, and
    the result is stored in [_aspects] and returned; nothing else happens
    to the controls, so [applyTo] is not called on account of the
    converted control. *)
Theorem converted_aspect_comes_from_source (n m this src k : nat)
    (w w1 w2 : World) (a1 a : Applied) :
  converted this = Some (src, None) ->
  _aspects w !! (this, k) = None ->
  _aspect n src k w = Some (a1, w1) ->
  exec m (convertTo a1 this) w1 = Some (Some a, w2) ->
  _aspect (S (S (n `max` m))) this k w = Some (a, cache this k a w2).
Proof.
  intros Hconv Hmiss Ha He.
  rewrite _aspect_S, Hmiss.
  unfold Aspects._applyAspect, convertAspect. rewrite Hconv. rewrite exec_S.
  rewrite (_aspect_more_steps applyTo convertTo converted n (n `max` m) _ _ _ _ _
             ltac:(lia) Ha).
  now rewrite (exec_more_steps applyTo convertTo converted m (n `max` m) _ _ _ _ _
                 ltac:(lia) He).
Qed.

(** X18.  When the converter of a converted control has an
    [applyAspect] and it returns an applied aspect, that is the aspect of
    the converted control: it is stored and returned as it is; neither the
    source's aspect is looked up nor [applyTo] called on account of this
    lookup. *)
Theorem custom_applyAspect_comes_first (m this src k : nat)
    (custom : nat -> Prog (option Applied)) (w w' : World) (a : Applied) :
  converted this = Some (src, Some custom) ->
  _aspects w !! (this, k) = None ->
  exec m (custom k) w = Some (Some a, w') ->
  _aspect (S (m + 1)) this k w = Some (a, cache this k a w').
Proof.
  intros Hconv Hmiss He.
  rewrite _aspect_S, Hmiss.
  unfold Aspects._applyAspect. rewrite Hconv.
  now rewrite (exec_bind m 1 _ _ (custom k)
                 (fun applied : option Applied =>
                    match applied with
                    | Some applied => Ret (Some applied)
                    | None => convertAspect convertTo src this k
                    end)
                 w w' w' (Some a) (Some a) He eq_refl).
Qed.

(** How often a lookup on a plain control has called [applyTo], once it
    has returned. *)
Lemma plain_lookup_counts (rank : nat * nat -> nat) (n this k : nat)
    (w w' : World) (a : Applied) :
  (forall control k, below rank (rank (control, k)) (applyTo k control)) ->
  (forall control k, below rank (rank (control, k)) (_applyAspect control k)) ->
  converted this = None ->
  _aspects w !! (this, k) = None ->
  _aspect n this k w = Some (a, w') ->
  timesApplied this k w' = S (timesApplied this k w)
  /\ _aspects w' !! (this, k) = Some a.
Proof.
  intros HapplyTo H_applyAspect Hplain Hmiss Ha.
  split; [|exact (lookup_caches applyTo convertTo converted n this k w w' a Ha)].
  destruct n as [|n]; [discriminate|]. rewrite _aspect_S, Hmiss in Ha.
  unfold Aspects._applyAspect in Ha. rewrite Hplain in Ha.
  destruct n as [|n]; [discriminate|].
  rewrite (exec_S applyTo convertTo converted n _ (Ret None)) in Ha.
  destruct (exec (S n) (applyTo k this) (noteApplyTo this k w))
    as [[a2 w2]|] eqn:He; [|discriminate].
  injection Ha as <- <-.
  destruct (proj1 (ranked_both applyTo convertTo converted rank
                     HapplyTo H_applyAspect (S n))
              _ _ _ _ _ _ (HapplyTo this k) He) as [U _].
  destruct (U (this, k) (Nat.le_refl _)) as [_ Ht]. cbn [fst snd] in Ht.
  change (timesApplied this k (cache this k a2 w2)) with (timesApplied this k w2).
  rewrite Ht, (timesApplied_note this k (this, k)).
  destruct (decide _); [reflexivity|contradiction].
Qed.

(** X19.  On a plain control (one not built by [convert]), the first
    lookup of an aspect returns (given enough steps, and then whatever the
    number of steps), has called [applyTo] for that control and aspect
    exactly once and has stored its result, provided no aspect needs
    itself to be applied: whatever [applyTo] looks up in turn does not
    apply the aspect again. *)
Theorem plain_lookup_applies_once (rank : nat * nat -> nat) (this k : nat)
    (w : World) :
  (forall control k, below rank (rank (control, k)) (applyTo k control)) ->
  (forall control k, below rank (rank (control, k)) (_applyAspect control k)) ->
  converted this = None ->
  _aspects w !! (this, k) = None ->
  exists n a w',
    (forall m, n <= m -> _aspect m this k w = Some (a, w'))
    /\ timesApplied this k w' = S (timesApplied this k w)
    /\ _aspects w' !! (this, k) = Some a.
Proof.
  intros HapplyTo H_applyAspect Hplain Hmiss.
  destruct (ranked_lookup_returns applyTo convertTo converted rank
              HapplyTo H_applyAspect (S (rank (this, k))) this k w
              (Nat.lt_succ_diag_r _)) as (n & a & w' & Ha).
  exists n, a, w'.
  split; [intros m Hm;
          exact (_aspect_more_steps applyTo convertTo converted n m this k w w' a Hm Ha)|].
  exact (plain_lookup_counts rank n this k w w' a HapplyTo H_applyAspect Hplain Hmiss Ha).
Qed.

Lemma exec_then_returns (n : nat) (A B : Type) (p : Prog A) (c : B)
    (w w' : World) (r : B) :
  exec n (bind p (fun _ => Ret c)) w = Some (r, w') -> r = c.
Proof.
  revert p w. induction n as [|n IH]; intros p w; [discriminate|].
  destruct p as [a|control k next|next]; cbn [bind]; rewrite exec_S.
  - now intros [= <- _].
  - destruct (_aspect n control k w) as [[a1 w1]|]; [|discriminate]. apply IH.
  - apply IH.
Qed.

(** What [setup] with an aspect key leaves, once it has returned. *)
Lemma setup_result (n this k : nat)
    (aspectSetup : option (value -> nat -> Prog unit)) (w w' : World) (r : nat) :
  exec n (setup this (AspectKey k) aspectSetup) w = Some (r, w') ->
  r = this
  /\ exists applied,
       _aspects w' !! (this, k) = Some applied
       /\ forall m, Aspects.aspect applyTo convertTo converted (S m) this k w'
                    = Some (instance applied, w').
Proof.
  destruct n as [|n]; [discriminate|]. cbn [setup]. rewrite exec_S.
  destruct (_aspect n this k w) as [[a w1]|] eqn:Ha; [|discriminate].
  intros He. split; [exact (exec_then_returns n _ _ _ this w1 w' r He)|].
  pose proof (lookup_caches applyTo convertTo converted n this k w w1 a Ha) as Hc1.
  destruct (proj1 (kept_both applyTo convertTo converted n (this, k) a)
              _ _ _ _ _ Hc1 He) as [Hc2 _].
  exists a. split; [exact Hc2|].
  intros m. unfold Aspects.aspect.
  now rewrite (cached_lookup applyTo convertTo converted m this k w' a Hc2).
Qed.

(** X21.  Provided no aspect needs itself to be applied and the setup
    function looks up aspects only, [setup(aspectKey, aspectSetup)]
    returns (given enough steps, and then whatever the number of steps);
    what it returns is the control it was called on, and it leaves the
    aspect applied to that control, whatever [aspectSetup] did (and also
    when it is left out): every later [aspect(aspectKey)] returns the
    instance from [_aspects] and changes nothing. *)
Theorem setup_applies_aspect (rank : nat * nat -> nat) (N this k : nat)
    (aspectSetup : option (value -> nat -> Prog unit)) (w : World) :
  (forall control k, below rank (rank (control, k)) (applyTo k control)) ->
  (forall control k, below rank (rank (control, k)) (_applyAspect control k)) ->
  below rank N (setup this (AspectKey k) aspectSetup) ->
  exists n w',
    (forall m, n <= m -> exec m (setup this (AspectKey k) aspectSetup) w = Some (this, w'))
    /\ exists applied,
         _aspects w' !! (this, k) = Some applied
         /\ forall m, Aspects.aspect applyTo convertTo converted (S m) this k w'
                      = Some (instance applied, w').
Proof.
  intros HapplyTo H_applyAspect Hsetup.
  destruct (ranked_returns applyTo convertTo converted rank HapplyTo H_applyAspect
              N _ (setup this (AspectKey k) aspectSetup) w Hsetup)
    as (n & r & w' & He).
  destruct (setup_result n this k aspectSetup w w' r He) as [-> Hcached].
  exists n, w'. split; [|exact Hcached].
  intros m Hm.
  exact (exec_more_steps applyTo convertTo converted n m _ _ w w' this Hm He).
Qed.

End Controls.

(** [control.setup(InStatus, (status, control) => ...)] on the plain
    control [0], the setup function looking up the container-like aspect
    of the control. *)
Lemma setup_applies_aspect_witness :
  exists n w',
    (forall m, n <= m ->
               exec twoAspects declines oneConverted m
                    (setup 0 (AspectKey 1)
                           (Some (fun _ control => LookUp control 0 (fun _ => Ret tt))))
                    emptyWorld
               = Some (0, w'))
    /\ exists applied,
         _aspects w' !! (0, 1) = Some applied
         /\ forall m, aspect twoAspects declines oneConverted (S m) 0 1 w'
                      = Some (instance applied, w').
Proof.
  apply (setup_applies_aspect twoAspects declines oneConverted twoAspectsRank 4 0 1
           (Some (fun _ control => LookUp control 0 (fun _ => Ret tt)))
           emptyWorld twoAspects_below oneConverted_below).
  cbn [setup bind]. apply below_LookUp; [unfold twoAspectsRank; cbn; lia|].
  intros applied. apply below_LookUp; [unfold twoAspectsRank; cbn; lia|].
  intros _. apply below_Ret.
Defined.

(** The status-like aspect looked up on control [1], converted from
    control [0], before either has any aspect: it ends up applied to
    control [0] too. *)
Lemma converted_lookup_reaches_source_witness :
  exists n a w',
    (forall m, n <= m ->
               _aspect twoAspects declines oneConverted m 1 1 emptyWorld = Some (a, w'))
    /\ _aspects w' !! (1, 1) = Some a
    /\ is_Some (_aspects w' !! (0, 1)).
Proof.
  exact (converted_lookup_reaches_source twoAspects declines oneConverted
           twoAspectsRank 1 0 1 emptyWorld twoAspects_below oneConverted_below
           eq_refl eq_refl).
Defined.

(** The same two controls with a [convertTo] that passes the source's
    aspect on: control [1] gets the very aspect of control [0]. *)
Lemma converted_aspect_comes_from_source_witness :
  let status0 := {| instance := VObj 0 []; convertsBy := 1 |} in
  let none := {| instance := VNull; convertsBy := 0 |} in
  let w1 := cache 0 1 status0
              (allocate (cache 0 0 none (noteApplyTo 0 0 (noteApplyTo 0 1 emptyWorld)))) in
  _aspect twoAspects passesOn oneConverted 7 1 1 emptyWorld
  = Some (status0, cache 1 1 status0 w1).
Proof.
  intros status0 none w1.
  apply (converted_aspect_comes_from_source twoAspects passesOn oneConverted
           5 1 1 0 1 emptyWorld w1 w1 status0 status0).
  - reflexivity.
  - reflexivity.
  - vm_compute. reflexivity.
  - reflexivity.
Defined.

(** Control [1] converted by a converter that builds the status-like
    aspect itself. *)
Lemma custom_applyAspect_comes_first_witness :
  let own := {| instance := VObj 0 []; convertsBy := 1 |} in
  _aspect twoAspects declines oneCustomConverted 4 1 1 emptyWorld
  = Some (own, cache 1 1 own (allocate emptyWorld)).
Proof.
  intros own.
  apply (custom_applyAspect_comes_first twoAspects declines oneCustomConverted
           2 1 0 1 ownStatus emptyWorld (allocate emptyWorld) own).
  - reflexivity.
  - reflexivity.
  - reflexivity.
Defined.

(** The status-like aspect looked up on the plain control [0]. *)
Lemma plain_lookup_applies_once_witness :
  exists n a w',
    (forall m, n <= m ->
               _aspect twoAspects declines oneConverted m 0 1 emptyWorld = Some (a, w'))
    /\ timesApplied 0 1 w' = S (timesApplied 0 1 emptyWorld)
    /\ _aspects w' !! (0, 1) = Some a.
Proof.
  exact (plain_lookup_applies_once twoAspects declines oneConverted
           twoAspectsRank 0 1 emptyWorld twoAspects_below oneConverted_below
           eq_refl eq_refl).
Defined.

End AspectLaws.

(** ** The data aspect under a fixed mode *)

Module DataLaws.
Import Data DataFacts.

Section DataAspect.

Variable Mode : Type.
Variable hasData : Mode -> bool.

Lemma value_updates (d : InData Mode) (vs : list value) :
  mode_ (updates hasData d (map ValueSent vs)) = mode_ d
  /\ received (updates hasData d (map ValueSent vs))
     = rev (map (fun v => dataOf hasData v (mode_ d)) vs) ++ received d.
Proof.
  revert d. induction vs as [|v vs IH]; intros d; [now split|].
  cbn [map updates fold_left].
  destruct (IH (update hasData d (ValueSent v))) as [H1 H2].
  unfold updates in *. rewrite H1, H2. cbn [update mode_ received rev].
  split; [reflexivity|]. now rewrite <- app_assoc.
Qed.

(** X20.  While the mode stays as it is, every value the control sends
    reaches the receivers of the data aspect once and in order: as it is
    when the mode has data, and as [undefined] when it has none, so that
    no value of the control is seen while its mode has no data.  Value
    events leave the mode alone. *)
Theorem values_sent_under_mode (d : InData Mode) (vs : list value) :
  mode_ (updates hasData d (map ValueSent vs)) = mode_ d
  /\ received (updates hasData d (map ValueSent vs))
     = (if hasData (mode_ d) then rev vs else repeat VUndefined (length vs))
       ++ received d.
Proof.
  destruct (value_updates d vs) as [H1 H2]. split; [exact H1|].
  rewrite H2. f_equal. unfold dataOf.
  destruct (hasData (mode_ d)).
  - now rewrite map_id.
  - clear. induction vs as [|v vs IH]; [reflexivity|].
    cbn [map rev length repeat]. rewrite IH. symmetry. apply repeat_cons.
Qed.

End DataAspect.

End DataLaws.
